(** * RegionData: the three-column-family MVCC store of a Raft region

    Shallow embedding of
    [dbms/src/Storages/KVStore/MultiRaft/RegionData.cpp]:
    the aggregate [RegionData] (Default / Write / Lock column families, the
    tracked byte counter [cf_data_size], the orphan-key tracker) together
    with the per-family store it is built on.

    Conventions.
    - [TiKVKey], [TiKVValue] and [RawTiDBPK] are byte strings ([string]).
    - [size_t] and [UInt64] values are integers; every addition and
      subtraction the C++ performs on a [size_t] is followed by [wrap64].
    - [std::map] / [std::unordered_map] are finite maps ([gmap]); a loop over
      a container walks [map_to_list].
    - A C++ exception is the left injection of a sum; the state a throwing
      call leaves behind is not observed.
    - Calls on the process-wide memory tracker are returned as a list of
      [MemCall] events in program order. *)

From stdpp Require Import gmap strings list fin_maps.

Open Scope Z_scope.

(** ** Scalars *)

Abbreviation TiKVKey := string (only parsing).
Abbreviation TiKVValue := string (only parsing).
Abbreviation DecodedTiKVKey := string (only parsing).
Abbreviation RawTiDBPK := string (only parsing).
Abbreviation Timestamp := N (only parsing).
Abbreviation RegionID := N (only parsing).
Abbreviation UInt64 := N (only parsing).

Definition wrap64 (z : Z) : Z := z mod 2 ^ 64.

(** [StringObject::dataSize]: the length of a key or a value. A length, like
    the element count of a container, is a [size_t] already and is taken as
    it is; [wrap64] follows the additions and subtractions on them. *)
Module StringObject.
Definition dataSize (s : string) : Z := Z.of_nat (String.length s).
End StringObject.

Module ColumnFamilyType.
Inductive t := Write | Default | Lock.
End ColumnFamilyType.

(** [RecordKVFormat::CFModifyFlag]. *)
Inductive CFModifyFlag := PutFlag | DelFlag | LockFlag | RollbackFlag.

Global Instance CFModifyFlag_eq_dec : EqDecision CFModifyFlag.
Proof. solve_decision. Defined.

Module kvrpcpb.
Inductive Op :=
  Put | Del | Lock | Rollback | Insert | PessimisticLock | CheckNotExists.

Global Instance Op_eq_dec : EqDecision Op.
Proof. solve_decision. Defined.
End kvrpcpb.

Record DecodedWriteCFValue := {
  write_type : CFModifyFlag;
  prewrite_ts : Timestamp;
  short_value : option TiKVValue   (* shared_ptr, null when absent *)
}.

(** Modelled from the spec: the declaration of [DecodedLockCFValue] is
    missing; the fields are those of the spec's
    [DecodedLock{lockVersion, lockType, minCommitTs, primaryKey}]. *)
Record DecodedLockCFValue := {
  lock_version : UInt64;
  lock_type : kvrpcpb.Op;
  min_commit_ts : UInt64;
  primary_lock : string
}.

(** The values the three maps hold: the raw key, the raw value and, for
    Write and Lock, the decoded value. *)
Record DefaultCFValue := {
  default_key : TiKVKey;
  default_value : TiKVValue
}.

Record WriteCFValue := {
  write_key : TiKVKey;
  write_value : TiKVValue;
  write_decoded : DecodedWriteCFValue
}.

Record LockCFValue := {
  lock_key : TiKVKey;
  lock_value : TiKVValue;
  lock_info_ptr : DecodedLockCFValue
}.

(** Keys of the Default and Write maps: (primary key, timestamp). *)
Abbreviation CFKey := (string * N)%type (only parsing).

(** [DupCheck]: what an insert does when the key is already there. *)
Inductive DupCheck := Deny | Allow.

(** ** Exceptions *)

Module ErrorCodes.
Inductive t := LOGICAL_ERROR | ILLFORMAT_RAFT_ROW.
End ErrorCodes.

(** What is appended to the missing-Default diagnostic when it is not
    empty: the snapshot index, whether the key is in
    [removed_remained_keys], the number of remained keys. *)
Abbreviation OrphanDebugMsg := (option UInt64 * bool * Z)%type (only parsing).

(** One constructor per throw site, carrying the values that the C++
    formats into the message. *)
Inductive Exception :=
| ObserveEmptyPK (key : TiKVKey)
| DefaultNotFound (pk : RawTiDBPK) (prewrite : Timestamp) (key : TiKVKey)
    (region_id : RegionID) (applied : UInt64)
    (orphan_key_debug_msg : option OrphanDebugMsg)
| SnapshotIndexNotSet
| OrphanKeysStillExist (count : Z) (one : option TiKVKey)
    (region_id : RegionID) (snapshot_index deadline_index applied_index : UInt64)
| FoundExistingKey (key : TiKVKey)
| GotDuplicateKey
| KeyNotFound
| MalformedEntry (key : TiKVKey)
| AttemptToReadAfterEOF.

(** The error code given at the throw site; [None] where the C++ passes
    none, or where the spec names the fault without a code. *)
Definition error_code (e : Exception) : option ErrorCodes.t :=
  match e with
  | ObserveEmptyPK _ => Some ErrorCodes.ILLFORMAT_RAFT_ROW
  | DefaultNotFound _ _ _ _ _ _ => Some ErrorCodes.ILLFORMAT_RAFT_ROW
  | SnapshotIndexNotSet => Some ErrorCodes.LOGICAL_ERROR
  | OrphanKeysStillExist _ _ _ _ _ _ => None
  | FoundExistingKey _ => Some ErrorCodes.LOGICAL_ERROR
  | GotDuplicateKey => Some ErrorCodes.LOGICAL_ERROR
  | KeyNotFound => Some ErrorCodes.LOGICAL_ERROR
  | MalformedEntry _ => None
  | AttemptToReadAfterEOF => None
  end.

Abbreviation Result A := (Exception + A)%type (only parsing).

(** ** Exceptions as a monad *)

Global Instance Result_ret : MRet (sum Exception) := λ A a, inr a.
Global Instance Result_bind : MBind (sum Exception) :=
  λ A B f m, match m with inl e => inl e | inr a => f a end.

(** ** Buffers

    A [WriteBuffer] is the bytes written so far, a [ReadBuffer] the bytes
    still to read. *)
Abbreviation Buffer := (list Byte.byte) (only parsing).

Definition read_with {A} (read : Buffer → option (A * Buffer)) (buf : Buffer)
  : Result (A * Buffer) :=
  match read buf with
  | Some res => inr res
  | None => inl AttemptToReadAfterEOF
  end.

(** ** The process-wide memory tracker, as events *)

Inductive MemCall := alloc (delta : Z) | free (delta : Z).

Definition reportAlloc (delta : Z) : list MemCall := [alloc delta].
Definition reportDealloc (delta : Z) : list MemCall := [free delta].
Definition reportDelta (prev current : Z) : list MemCall :=
  if bool_decide (prev ≤ current) then [alloc (current - prev)]
  else [free (prev - current)].

(** What a sequence of calls adds to the memory tracker: the bytes
    allocated minus the bytes freed. *)
Definition mem_net (calls : list MemCall) : Z :=
  foldr (λ c acc,
           match c with
           | alloc delta => delta + acc
           | free delta => acc - delta
           end) 0 calls.

(** The amount of a call is a [size_t]. *)
Definition size_t_call (c : MemCall) : Prop :=
  match c with
  | alloc delta | free delta => 0 ≤ delta < 2 ^ 64
  end.

(** ** The per-family store *)

(** [RegionCFDataBase], the store of one column family, is not in the
    sources verified here: each of its operations below is modelled from the
    spec's "Column-Family Store" and says so. The key type, the raw key and
    raw value of an entry and the size of an entry belong to the family. *)
Section RegionCFDataBase.
Context {K : Type} `{Countable K} {V : Type}.

Variable getTiKVKey : V → TiKVKey.
Variable getTiKVValue : V → TiKVValue.
Variable calcTiKVKeyValueSize : V → Z.

(** Sum of the sizes of the entries a store holds (an unbounded integer,
    not a [size_t]). *)
Definition cf_bytes (data : gmap K V) : Z :=
  map_fold (λ _ v acc, calcTiKVKeyValueSize v + acc) 0 data.

(** Modelled from the spec: [RegionCFDataBase::insert] is missing. The spec:
    "inserts or overwrites. dupMode selects whether an existing key is
    silently overwritten or whether overwrite is treated as a logic fault.
    Returns the net byte-size change (positive for new key, signed delta for
    overwrite)"; the signed delta is a [size_t] like every size here. *)
Definition cf_insert (kv : K * V) (mode : DupCheck) (data : gmap K V)
  : Result (Z * gmap K V) :=
  match data !! kv.1 with
  | None => inr (calcTiKVKeyValueSize kv.2, <[kv.1 := kv.2]> data)
  | Some old =>
      match mode with
      | Deny => inl (FoundExistingKey (getTiKVKey kv.2))
      | Allow =>
          inr (wrap64 (calcTiKVKeyValueSize kv.2 - calcTiKVKeyValueSize old),
               <[kv.1 := kv.2]> data)
      end
  end.

(** Modelled from the spec: [RegionCFDataBase::remove] is missing. The spec:
    "removes if present; if tolerateMissing is true and the key is absent,
    returns 0 rather than failing". *)
Definition cf_remove (key : K) (quiet : bool) (data : gmap K V)
  : Result (Z * gmap K V) :=
  match data !! key with
  | Some value => inr (calcTiKVKeyValueSize value, delete key data)
  | None => if quiet then inr (0, data) else inl KeyNotFound
  end.

Section Split.
Context {RegionRange : Type}.
Variable range_contains : RegionRange → TiKVKey → bool.

Definition in_range (range : RegionRange) (kv : K * V) : Prop :=
  range_contains range (getTiKVKey kv.2) = true.

Global Instance in_range_dec range kv : Decision (in_range range kv).
Proof. unfold in_range. apply _. Defined.

(** Modelled from the spec: [RegionCFDataBase::splitInto] is missing. The
    spec: "move entries whose primary key falls inside/outside a half-open
    key range between two stores, returning the byte-size moved". An entry
    is inside when the range contains its raw key; an entry the target
    already holds stays as the target has it. Result: bytes moved, what
    stays, the target afterwards. *)
Definition cf_splitInto (range : RegionRange) (data new_data : gmap K V)
  : Z * gmap K V * gmap K V :=
  let moved := filter (in_range range) data in
  (wrap64 (cf_bytes moved),
   filter (λ kv, ¬ in_range range kv) data,
   new_data ∪ moved).
End Split.

(** Modelled from the spec: [RegionCFDataBase::mergeFrom] is missing. The
    spec: the entries of the source are added, "returning the byte-size
    moved"; a key that both stores hold is a logic fault, as for an insert
    that asserts uniqueness. *)
Definition cf_mergeFrom (ori data : gmap K V) : Result (Z * gmap K V) :=
  if decide (data ##ₘ ori)
  then inr (wrap64 (cf_bytes ori), data ∪ ori)
  else inl GotDuplicateKey.


(** The binary primitives of [WriteHelpers] / [ReadHelpers] and of
    [StringObject] are parameters: the writers give the bytes they emit, the
    readers consume a prefix of the buffer. *)
Variable writeSize : Z → Buffer.
Variable readSize : Buffer → option (Z * Buffer).
Variable writeString : string → Buffer.
Variable readString : Buffer → option (string * Buffer).

Definition cf_serialize_entry (acc : Z * Buffer) (kv : K * V) : Z * Buffer :=
  let key := writeString (getTiKVKey kv.2) in
  let value := writeString (getTiKVValue kv.2) in
  let total_size := wrap64 (acc.1 + Z.of_nat (length key)) in
  let total_size := wrap64 (total_size + Z.of_nat (length value)) in
  (total_size, acc.2 ++ key ++ value).

(** Modelled from the spec: [RegionCFDataBase::serialize] is missing. The
    spec: "ordered binary encode/decode of all entries", each section
    "self-delimited": the entry count, then every entry in iteration order,
    raw key and raw value. Result: bytes written, the buffer afterwards. *)
Definition cf_serialize (data : gmap K V) (buf : Buffer) : Z * Buffer :=
  let count := writeSize (Z.of_nat (size data)) in
  foldl cf_serialize_entry
    (wrap64 (0 + Z.of_nat (length count)), buf ++ count)
    (map_to_list data).

(** The family's insert of a raw key and a raw value. *)
Variable insert_raw : TiKVKey → TiKVValue → gmap K V → Result (Z * gmap K V).

Fixpoint cf_deserialize_entries (n : nat) (buf : Buffer) (data : gmap K V)
    (cf_data_size : Z) : Result (Z * gmap K V * Buffer) :=
  match n with
  | O => inr (cf_data_size, data, buf)
  | S n =>
      '(key, buf) ← read_with readString buf;
      '(value, buf) ← read_with readString buf;
      '(delta, data) ← insert_raw key value data;
      cf_deserialize_entries n buf data (wrap64 (cf_data_size + delta))
  end.

(** Modelled from the spec: [RegionCFDataBase::deserialize] is missing. The
    spec: the entries are decoded and inserted, the size "recomputed from
    decoded entries, never stored". Result: the size of what was inserted,
    the store and the buffer afterwards. *)
Definition cf_deserialize (buf : Buffer) (new_region_data : gmap K V)
  : Result (Z * gmap K V * Buffer) :=
  '(size, buf) ← read_with readSize buf;
  cf_deserialize_entries (Z.to_nat size) buf new_region_data 0.

(** Modelled from the spec: the equality of two stores is missing. The
    spec: a round trip "must reproduce byte-identical entries": the same
    keys, holding the same raw keys and raw values. *)
Definition cf_eqb (a b : gmap K V) : bool :=
  bool_decide ((λ v, (getTiKVKey v, getTiKVValue v)) <$> a
               = (λ v, (getTiKVKey v, getTiKVValue v)) <$> b).
End RegionCFDataBase.

(** ** The orphan-key tracker *)

Module OrphanKeysInfo.

Record t := {
  pre_handling : bool;
  snapshot_index : option UInt64;
  deadline_index : option UInt64;
  region_id : RegionID;
  remained_keys : gset TiKVKey;
  removed_remained_keys : gset TiKVKey
}.

Definition with_remained_keys (keys : gset TiKVKey) (o : t) : t :=
  {| pre_handling := pre_handling o;
     snapshot_index := snapshot_index o;
     deadline_index := deadline_index o;
     region_id := region_id o;
     remained_keys := keys;
     removed_remained_keys := removed_remained_keys o |}.

Definition observeExtraKey (key : TiKVKey) (o : t) : t :=
  with_remained_keys ({[key]} ∪ remained_keys o) o.

(** [erase] returns the number of elements removed, here as the [bool] the
    C++ converts it to. The insertion into [removed_remained_keys] is
    commented out in the source. *)
Definition observeKeyFromNormalWrite (key : TiKVKey) (o : t) : bool * t :=
  let res := bool_decide (key ∈ remained_keys o) in
  (res, with_remained_keys (remained_keys o ∖ {[key]}) o).

Definition containsExtraKey (key : TiKVKey) (o : t) : bool :=
  bool_decide (key ∈ remained_keys o).

Definition remainedKeyCount (o : t) : Z :=
  Z.of_nat (size (remained_keys o)).

Definition mergeFrom (other : t) (o : t) : t :=
  with_remained_keys (remained_keys o ∪ remained_keys other) o.

Definition advanceAppliedIndex (applied_index : UInt64) (o : t) : Result unit :=
  match deadline_index o, snapshot_index o with
  | Some deadline, Some snapshot =>
      let count := remainedKeyCount o in
      if (deadline <=? applied_index)%N && (0 <? count)
      then inl (OrphanKeysStillExist count (head (elements (remained_keys o)))
                  (region_id o) snapshot deadline applied_index)
      else inr ()
  | _, _ => inr ()
  end.

(** The calls that change the remained keys, and a sequence of them applied
    in order. *)
Inductive Call :=
| ObserveExtraKey (key : TiKVKey)
| ObserveKeyFromNormalWrite (key : TiKVKey)
| MergeFrom (other : t).

Definition call (o : t) (c : Call) : t :=
  match c with
  | ObserveExtraKey key => observeExtraKey key o
  | ObserveKeyFromNormalWrite key => (observeKeyFromNormalWrite key o).2
  | MergeFrom other => mergeFrom other o
  end.

Definition calls (cs : list Call) (o : t) : t := foldl call o cs.

End OrphanKeysInfo.

(** ** The aggregate *)

Module RegionData.

(** [optional<RegionDataReadInfo>]: primary key, write type, commit
    timestamp, value (null when not asked for or not a Put). *)
Abbreviation RegionDataReadInfo :=
  (RawTiDBPK * CFModifyFlag * Timestamp * option TiKVValue)%type (only parsing).

Record RegionLockReadQuery := {
  read_tso : UInt64;
  bypass_lock_ts : option (gset UInt64)   (* pointer to a set, may be null *)
}.

Record t := {
  write_cf : gmap CFKey WriteCFValue;
  default_cf : gmap CFKey DefaultCFValue;
  lock_cf : gmap TiKVKey LockCFValue;
  orphan_keys_info : OrphanKeysInfo.t;
  cf_data_size : Z
}.

(** A default-constructed instance; the tracker's initial state is left to
    the caller. *)
Definition empty (o : OrphanKeysInfo.t) : t :=
  {| write_cf := ∅; default_cf := ∅; lock_cf := ∅;
     orphan_keys_info := o; cf_data_size := 0 |}.

Definition with_orphan_keys_info (o : OrphanKeysInfo.t) (this : t) : t :=
  {| write_cf := write_cf this; default_cf := default_cf this;
     lock_cf := lock_cf this; orphan_keys_info := o;
     cf_data_size := cf_data_size this |}.

(** Modelled from the spec: [calcTiKVKeyValueSize] of the Default and Write
    families is missing. The spec counts the "byte-size" of the entries
    stored, an overwrite changing it "by value-length difference": the bytes
    of the raw key plus the bytes of the raw value. *)
Definition kv_size (key : TiKVKey) (value : TiKVValue) : Z :=
  wrap64 (StringObject.dataSize key + StringObject.dataSize value).

Definition default_size (v : DefaultCFValue) : Z :=
  kv_size (default_key v) (default_value v).

Definition write_size (v : WriteCFValue) : Z :=
  kv_size (write_key v) (write_value v).

(** Modelled from the spec: the size the Lock store reports for an entry is
    missing. The spec has the byte counter cover
    "Default+Write only (Lock excluded by design)" and the Lock family
    "partitioned/merged the same way but never affects tracked size": the
    Lock store reports 0 for every entry. *)
Definition lock_size (v : LockCFValue) : Z := 0.

(** Bytes held by the two counted families. *)
Definition stored_bytes (this : t) : Z :=
  cf_bytes default_size (default_cf this) + cf_bytes write_size (write_cf this).

Section WithFormat.

(** [RecordKVFormat] and the decoders of the Write and Lock values are
    parameters. *)
Variable decodeTiKVKey : TiKVKey → DecodedTiKVKey.
Variable getRawTiDBPK : DecodedTiKVKey → RawTiDBPK.
Variable getTs : TiKVKey → Timestamp.
Variable decodeWriteCFValue : TiKVValue → option DecodedWriteCFValue.
Variable decodeLockCFValue : TiKVKey → TiKVValue → option DecodedLockCFValue.

(** [RegionRange] and the comparison of its two ends with a key. *)
Context {RegionRange : Type}.
Variable range_contains : RegionRange → TiKVKey → bool.

Definition decodedKey (key : TiKVKey) : CFKey :=
  (getRawTiDBPK (decodeTiKVKey key), getTs key).

(** Modelled from the spec: the three family traits ([genKVPair]) are
    missing. A Default entry is keyed by (primaryKey, startTs), a Write
    entry by (primaryKey, commitTs) and carries its decoded value, a Lock
    entry is keyed by the raw key bytes and carries its decoded lock; a
    value that does not decode is a malformed entry, fatal for that entry. *)
Definition default_genKVPair (key : TiKVKey) (value : TiKVValue)
  : CFKey * DefaultCFValue :=
  (decodedKey key, {| default_key := key; default_value := value |}).

(** Modelled from the spec: [genKVPair] of the Write family, as said
    above. *)
Definition write_genKVPair (key : TiKVKey) (value : TiKVValue)
  : Result (CFKey * WriteCFValue) :=
  match decodeWriteCFValue value with
  | Some decoded =>
      inr (decodedKey key,
           {| write_key := key; write_value := value; write_decoded := decoded |})
  | None => inl (MalformedEntry key)
  end.

(** Modelled from the spec: [genKVPair] of the Lock family, as said
    above. *)
Definition lock_genKVPair (key : TiKVKey) (value : TiKVValue)
  : Result (TiKVKey * LockCFValue) :=
  match decodeLockCFValue key value with
  | Some decoded =>
      inr (key, {| lock_key := key; lock_value := value; lock_info_ptr := decoded |})
  | None => inl (MalformedEntry key)
  end.

(** The insert of each family: the pair of the raw key and raw value, put
    into the store. *)
Definition default_cf_insert (key : TiKVKey) (value : TiKVValue) (mode : DupCheck)
    (data : gmap CFKey DefaultCFValue) : Result (Z * gmap CFKey DefaultCFValue) :=
  cf_insert default_key default_size (default_genKVPair key value) mode data.

Definition write_cf_insert (key : TiKVKey) (value : TiKVValue) (mode : DupCheck)
    (data : gmap CFKey WriteCFValue) : Result (Z * gmap CFKey WriteCFValue) :=
  kv ← write_genKVPair key value;
  cf_insert write_key write_size kv mode data.

Definition lock_cf_insert (key : TiKVKey) (value : TiKVValue) (mode : DupCheck)
    (data : gmap TiKVKey LockCFValue) : Result (Z * gmap TiKVKey LockCFValue) :=
  kv ← lock_genKVPair key value;
  cf_insert lock_key lock_size kv mode data.

(** *** insert, remove *)

Definition insert (cf : ColumnFamilyType.t) (key : TiKVKey) (value : TiKVValue)
    (mode : DupCheck) (this : t) : Result (Z * t * list MemCall) :=
  match cf with
  | ColumnFamilyType.Write =>
      '(delta, data) ← write_cf_insert key value mode (write_cf this);
      mret (delta,
            {| write_cf := data; default_cf := default_cf this;
               lock_cf := lock_cf this;
               orphan_keys_info := orphan_keys_info this;
               cf_data_size := wrap64 (cf_data_size this + delta) |},
            reportAlloc delta)
  | ColumnFamilyType.Default =>
      '(delta, data) ← default_cf_insert key value mode (default_cf this);
      mret (delta,
            {| write_cf := write_cf this; default_cf := data;
               lock_cf := lock_cf this;
               orphan_keys_info := orphan_keys_info this;
               cf_data_size := wrap64 (cf_data_size this + delta) |},
            reportAlloc delta)
  | ColumnFamilyType.Lock =>
      (* lock cf is not count into the size of RegionData *)
      '(_, data) ← lock_cf_insert key value mode (lock_cf this);
      mret (0,
            {| write_cf := write_cf this; default_cf := default_cf this;
               lock_cf := data;
               orphan_keys_info := orphan_keys_info this;
               cf_data_size := cf_data_size this |},
            [])
  end.

Definition remove (cf : ColumnFamilyType.t) (key : TiKVKey) (this : t)
  : Result (t * list MemCall) :=
  match cf with
  | ColumnFamilyType.Write =>
      let raw_key := decodeTiKVKey key in
      let pk := getRawTiDBPK raw_key in
      let ts := getTs key in
      (* removed by gc, may not exist. *)
      '(delta, data) ← cf_remove write_size (pk, ts) true (write_cf this);
      mret ({| write_cf := data; default_cf := default_cf this;
               lock_cf := lock_cf this;
               orphan_keys_info := orphan_keys_info this;
               cf_data_size := wrap64 (cf_data_size this - delta) |},
            reportDealloc delta)
  | ColumnFamilyType.Default =>
      let raw_key := decodeTiKVKey key in
      let pk := getRawTiDBPK raw_key in
      let ts := getTs key in
      (* removed by gc, may not exist. *)
      '(delta, data) ← cf_remove default_size (pk, ts) true (default_cf this);
      mret ({| write_cf := write_cf this; default_cf := data;
               lock_cf := lock_cf this;
               orphan_keys_info := orphan_keys_info this;
               cf_data_size := wrap64 (cf_data_size this - delta) |},
            reportDealloc delta)
  | ColumnFamilyType.Lock =>
      '(_, data) ← cf_remove lock_size key true (lock_cf this);
      mret ({| write_cf := write_cf this; default_cf := default_cf this;
               lock_cf := data;
               orphan_keys_info := orphan_keys_info this;
               cf_data_size := cf_data_size this |},
            [])
  end.

(** *** removeDataByWriteIt

    A Write iterator is the entry it points to, [(pk, ts) ↦ value]; it is
    valid when the Write map holds that entry. The successor iterator that
    [erase] returns is not part of the model. *)
Abbreviation WriteCFIter := (CFKey * WriteCFValue)%type (only parsing).

Definition valid_write_it (write_it : WriteCFIter) (this : t) : Prop :=
  write_cf this !! write_it.1 = Some write_it.2.

Definition removeDataByWriteIt (write_it : WriteCFIter) (this : t)
  : t * list MemCall :=
  let decoded_val := write_decoded write_it.2 in
  let pk := write_it.1.1 in
  let '(map, size1, calls1) :=
    if bool_decide (write_type decoded_val = PutFlag) then
      match default_cf this !! (pk, prewrite_ts decoded_val) with
      | Some data =>
          let delta := default_size data in
          (delete (pk, prewrite_ts decoded_val) (default_cf this),
           wrap64 (cf_data_size this - delta),
           reportDealloc delta)
      | None => (default_cf this, cf_data_size this, [])
      end
    else (default_cf this, cf_data_size this, [])
  in
  let delta := write_size write_it.2 in
  ({| write_cf := delete write_it.1 (write_cf this); default_cf := map;
      lock_cf := lock_cf this;
      orphan_keys_info := orphan_keys_info this;
      cf_data_size := wrap64 (size1 - delta) |},
   calls1 ++ reportDealloc delta).

(** *** readDataByWriteIt

    The result is the optional read info together with the instance
    afterwards: the pre-handling branch records the key in the tracker. *)
Definition readDataByWriteIt (write_it : WriteCFIter) (need_value : bool)
    (region_id : RegionID) (applied : UInt64) (hard_error : bool) (this : t)
  : Result (option RegionDataReadInfo * t) :=
  let key := write_key write_it.2 in
  let decoded_val := write_decoded write_it.2 in
  let pk := write_it.1.1 in
  let ts := write_it.1.2 in
  let orphan := orphan_keys_info this in
  if bool_decide (pk = EmptyString) then inl (ObserveEmptyPK key)
  else if negb need_value then
    inr (Some (pk, write_type decoded_val, ts, None), this)
  else if bool_decide (write_type decoded_val ≠ PutFlag) then
    inr (Some (pk, write_type decoded_val, ts, None), this)
  else
    match short_value decoded_val with
    | None =>
        match default_cf this !! (pk, prewrite_ts decoded_val) with
        | Some data =>
            inr (Some (pk, write_type decoded_val, ts, Some (default_value data)),
                 this)
        | None =>
            if negb hard_error then
              if OrphanKeysInfo.pre_handling orphan then
                (* RUNTIME_CHECK_MSG(snapshot_index.has_value(), ...): the
                   spec has this branch require the snapshot index to be
                   set; the failed check ends the call with a logic fault *)
                match OrphanKeysInfo.snapshot_index orphan with
                | None => inl SnapshotIndexNotSet
                | Some _ =>
                    inr (None,
                         with_orphan_keys_info
                           (OrphanKeysInfo.observeExtraKey key orphan) this)
                end
              else
                match OrphanKeysInfo.snapshot_index orphan with
                | Some _ =>
                    if OrphanKeysInfo.containsExtraKey key orphan
                    then inr (None, this)
                    else inr (None, this)
                | None => inr (None, this)
                end
            else
              (* every path of the block above has returned *)
              let orphan_key_debug_msg : option OrphanDebugMsg :=
                if negb hard_error then
                  Some (OrphanKeysInfo.snapshot_index orphan,
                        bool_decide
                          (key ∈ OrphanKeysInfo.removed_remained_keys orphan),
                        OrphanKeysInfo.remainedKeyCount orphan)
                else None in
              inl (DefaultNotFound pk (prewrite_ts decoded_val) key region_id
                     applied orphan_key_debug_msg)
        end
    | Some _ =>
        inr (Some (pk, write_type decoded_val, ts, short_value decoded_val), this)
    end.

(** *** getLockInfo *)

Definition bypassed (query : RegionLockReadQuery) (version : UInt64) : bool :=
  match bypass_lock_ts query with
  | Some versions => bool_decide (version ∈ versions)
  | None => false
  end.

(** The body of the loop, over the entries still to visit. *)
Fixpoint getLockInfo_scan (query : RegionLockReadQuery)
    (entries : list (TiKVKey * LockCFValue)) : option DecodedLockCFValue :=
  match entries with
  | [] => None
  | (_, value) :: rest =>
      let lock_info := lock_info_ptr value in
      if (read_tso query <? lock_version lock_info)%N
         || bool_decide (lock_type lock_info = kvrpcpb.Lock)
         || bool_decide (lock_type lock_info = kvrpcpb.PessimisticLock)
      then getLockInfo_scan query rest
      else if (read_tso query <? min_commit_ts lock_info)%N
      then getLockInfo_scan query rest
      else if bypassed query (lock_version lock_info)
      then getLockInfo_scan query rest
      else Some lock_info
  end.

Definition getLockInfo (query : RegionLockReadQuery) (this : t)
  : option DecodedLockCFValue :=
  getLockInfo_scan query (map_to_list (lock_cf this)).

(** The spec's wording of the locks [getLockInfo] may return: not created
    after the read, not an intention lock, not committing after the read,
    not bypassed by the caller. *)
Definition blocks_read (query : RegionLockReadQuery) (info : DecodedLockCFValue)
  : Prop :=
  (lock_version info ≤ read_tso query)%N
  ∧ lock_type info ≠ kvrpcpb.Lock
  ∧ lock_type info ≠ kvrpcpb.PessimisticLock
  ∧ (min_commit_ts info ≤ read_tso query)%N
  ∧ match bypass_lock_ts query with
    | Some versions => lock_version info ∉ versions
    | None => True
    end.

Global Instance blocks_read_dec query info : Decision (blocks_read query info).
Proof. unfold blocks_read. destruct (bypass_lock_ts query); apply _. Defined.

(** *** splitInto, mergeFrom *)

(** Result: [this] afterwards and [new_region_data] afterwards. *)
Definition splitInto (range : RegionRange) (this new_region_data : t) : t * t :=
  let size_changed := 0 in
  let '(moved_default, default1, new_default) :=
    cf_splitInto default_key default_size range_contains range
      (default_cf this) (default_cf new_region_data) in
  let size_changed := wrap64 (size_changed + moved_default) in
  let '(moved_write, write1, new_write) :=
    cf_splitInto write_key write_size range_contains range
      (write_cf this) (write_cf new_region_data) in
  let size_changed := wrap64 (size_changed + moved_write) in
  let '(moved_lock, lock1, new_lock) :=
    cf_splitInto lock_key lock_size range_contains range
      (lock_cf this) (lock_cf new_region_data) in
  let size_changed := wrap64 (size_changed + moved_lock) in
  ({| write_cf := write1; default_cf := default1; lock_cf := lock1;
      orphan_keys_info := orphan_keys_info this;
      cf_data_size := wrap64 (cf_data_size this - size_changed) |},
   {| write_cf := new_write; default_cf := new_default; lock_cf := new_lock;
      orphan_keys_info := orphan_keys_info new_region_data;
      cf_data_size := wrap64 (cf_data_size new_region_data + size_changed) |}).

Definition mergeFrom (ori_region_data : t) (this : t) : Result t :=
  let size_changed := 0 in
  '(merged_default, default1) ←
    cf_mergeFrom default_size (default_cf ori_region_data) (default_cf this);
  let size_changed := wrap64 (size_changed + merged_default) in
  '(merged_write, write1) ←
    cf_mergeFrom write_size (write_cf ori_region_data) (write_cf this);
  let size_changed := wrap64 (size_changed + merged_write) in
  '(merged_lock, lock1) ←
    cf_mergeFrom lock_size (lock_cf ori_region_data) (lock_cf this);
  let size_changed := wrap64 (size_changed + merged_lock) in
  mret {| write_cf := write1; default_cf := default1; lock_cf := lock1;
          orphan_keys_info := orphan_keys_info this;
          cf_data_size := wrap64 (cf_data_size this + size_changed) |}.

Definition dataSize (this : t) : Z := cf_data_size this.

Definition assignRegionData (new_region_data : t) (this : t) : t :=
  {| write_cf := write_cf new_region_data;
     default_cf := default_cf new_region_data;
     lock_cf := lock_cf new_region_data;
     orphan_keys_info := orphan_keys_info new_region_data;
     cf_data_size := cf_data_size new_region_data |}.

(** [RegionData(RegionData && data)]: the three stores and the size are
    taken over; the tracker is the default-constructed one, given by the
    caller. *)
Definition move_construct (o : OrphanKeysInfo.t) (data : t) : t :=
  {| write_cf := write_cf data; default_cf := default_cf data;
     lock_cf := lock_cf data; orphan_keys_info := o;
     cf_data_size := cf_data_size data |}.

(** [operator=(RegionData && rhs)]: the tracker of [this] stays. *)
Definition move_assign (rhs : t) (this : t) : t * list MemCall :=
  ({| write_cf := write_cf rhs; default_cf := default_cf rhs;
      lock_cf := lock_cf rhs; orphan_keys_info := orphan_keys_info this;
      cf_data_size := cf_data_size rhs |},
   reportDelta (cf_data_size this) (cf_data_size rhs)).

Definition isEqual (r2 : t) (this : t) : bool :=
  cf_eqb default_key default_value (default_cf this) (default_cf r2)
  && cf_eqb write_key write_value (write_cf this) (write_cf r2)
  && cf_eqb lock_key lock_value (lock_cf this) (lock_cf r2)
  && bool_decide (cf_data_size this = cf_data_size r2).

(** *** Instances built through the interface

    What a caller can build: a default-constructed instance, then any
    sequence of the mutating operations that return. A split fills a
    default-constructed instance, the output half of the split. The fields
    of the tracker are written by the callers and by [readDataByWriteIt]:
    the tracker may become anything. *)
Inductive reachable : t → Prop :=
| reach_empty o : reachable (empty o)
| reach_tracker o this :
    reachable this → reachable (with_orphan_keys_info o this)
| reach_insert cf key value mode this delta this' calls :
    reachable this →
    insert cf key value mode this = inr (delta, this', calls) →
    reachable this'
| reach_remove cf key this this' calls :
    reachable this →
    remove cf key this = inr (this', calls) →
    reachable this'
| reach_removeDataByWriteIt write_it this :
    reachable this →
    valid_write_it write_it this →
    reachable (removeDataByWriteIt write_it this).1
| reach_splitInto_source range this o :
    reachable this → reachable (splitInto range this (empty o)).1
| reach_splitInto_target range this o :
    reachable this → reachable (splitInto range this (empty o)).2
| reach_mergeFrom ori this this' :
    reachable this → reachable ori →
    mergeFrom ori this = inr this' →
    reachable this'.

(** The tracked counter is the [size_t] sum of the stored Default and Write
    entries. *)
Definition size_tracked (this : t) : Prop :=
  cf_data_size this = wrap64 (stored_bytes this).

(** Every entry sits under the key its raw key decodes to and carries the
    decoding of its raw value. *)
Definition keys_decoded (this : t) : Prop :=
  map_Forall (λ k v, default_genKVPair (default_key v) (default_value v) = (k, v))
    (default_cf this)
  ∧ map_Forall (λ k v, write_genKVPair (write_key v) (write_value v) = inr (k, v))
      (write_cf this)
  ∧ map_Forall (λ k v, lock_genKVPair (lock_key v) (lock_value v) = inr (k, v))
      (lock_cf this).

(** The entry count of each store is a [size_t]. *)
Definition counts_fit (this : t) : Prop :=
  Z.of_nat (size (default_cf this)) < 2 ^ 64
  ∧ Z.of_nat (size (write_cf this)) < 2 ^ 64
  ∧ Z.of_nat (size (lock_cf this)) < 2 ^ 64.

(** *** serialize, deserialize *)

Variable writeSize : Z → Buffer.
Variable readSize : Buffer → option (Z * Buffer).
Variable writeString : string → Buffer.
Variable readString : Buffer → option (string * Buffer).

(** Result: bytes written, the buffer afterwards. *)
Definition serialize (buf : Buffer) (this : t) : Z * Buffer :=
  let total_size := 0 in
  let '(written, buf) :=
    cf_serialize default_key default_value writeSize writeString
      (default_cf this) buf in
  let total_size := wrap64 (total_size + written) in
  let '(written, buf) :=
    cf_serialize write_key write_value writeSize writeString
      (write_cf this) buf in
  let total_size := wrap64 (total_size + written) in
  let '(written, buf) :=
    cf_serialize lock_key lock_value writeSize writeString
      (lock_cf this) buf in
  let total_size := wrap64 (total_size + written) in
  (total_size, buf).

(** Result: [region_data] afterwards, the buffer afterwards. *)
Definition deserialize (buf : Buffer) (region_data : t) : Result (t * Buffer) :=
  let total_size := 0 in
  '(size, default1, buf) ←
    cf_deserialize readSize readString
      (λ key value, default_cf_insert key value Deny)
      buf (default_cf region_data);
  let total_size := wrap64 (total_size + size) in
  '(size, write1, buf) ←
    cf_deserialize readSize readString
      (λ key value, write_cf_insert key value Deny)
      buf (write_cf region_data);
  let total_size := wrap64 (total_size + size) in
  '(size, lock1, buf) ←
    cf_deserialize readSize readString
      (λ key value, lock_cf_insert key value Deny)
      buf (lock_cf region_data);
  let total_size := wrap64 (total_size + size) in
  mret ({| write_cf := write1; default_cf := default1; lock_cf := lock1;
           orphan_keys_info := orphan_keys_info region_data;
           cf_data_size := wrap64 (cf_data_size region_data + total_size) |},
        buf).

End WithFormat.
End RegionData.

(** ** Sample data *)

Module Sample.
Import Stdlib.Strings.Ascii.

(** A toy wire format. A raw key is one timestamp byte followed by the
    primary key. A Write value is a flag byte (P, D, L or R), the prewrite
    timestamp byte and the short value, empty when there is none. A Lock
    value is a type byte (P, D, L or S for PessimisticLock), the version
    byte, the minimal-commit byte and the primary lock. A range is a pair
    of keys, compared byte by byte. A [size_t] is written in unary, a byte
    string as its length followed by its bytes. *)
Definition decodeTiKVKey (key : string) : string := key.

Definition getRawTiDBPK (raw_key : string) : string :=
  match raw_key with
  | String _ pk => pk
  | EmptyString => EmptyString
  end.

Definition getTs (key : string) : N :=
  match key with
  | String ts _ => Ascii.N_of_ascii ts
  | EmptyString => 0%N
  end.

Definition decodeFlag (c : Ascii.ascii) : option CFModifyFlag :=
  if Ascii.eqb c "P"%char then Some PutFlag
  else if Ascii.eqb c "D"%char then Some DelFlag
  else if Ascii.eqb c "L"%char then Some LockFlag
  else if Ascii.eqb c "R"%char then Some RollbackFlag
  else None.

Definition decodeWriteCFValue (value : string) : option DecodedWriteCFValue :=
  match value with
  | String flag (String ts short) =>
      match decodeFlag flag with
      | Some flag =>
          Some {| write_type := flag; prewrite_ts := Ascii.N_of_ascii ts;
                  short_value :=
                    match short with
                    | EmptyString => None
                    | _ => Some short
                    end |}
      | None => None
      end
  | _ => None
  end.

Definition decodeOp (c : Ascii.ascii) : option kvrpcpb.Op :=
  if Ascii.eqb c "P"%char then Some kvrpcpb.Put
  else if Ascii.eqb c "D"%char then Some kvrpcpb.Del
  else if Ascii.eqb c "L"%char then Some kvrpcpb.Lock
  else if Ascii.eqb c "S"%char then Some kvrpcpb.PessimisticLock
  else None.

Definition decodeLockCFValue (key value : string) : option DecodedLockCFValue :=
  match value with
  | String op (String version (String min_commit primary)) =>
      match decodeOp op with
      | Some op =>
          Some {| lock_version := Ascii.N_of_ascii version; lock_type := op;
                  min_commit_ts := Ascii.N_of_ascii min_commit;
                  primary_lock := primary |}
      | None => None
      end
  | _ => None
  end.

Definition range_contains (range : string * string) (key : string) : bool :=
  String.leb range.1 key && String.ltb key range.2.

Definition writeSize (n : Z) : list Byte.byte :=
  repeat Byte.x01 (Z.to_nat n) ++ [Byte.x00].

Fixpoint readUnary (buf : list Byte.byte) : option (nat * list Byte.byte) :=
  match buf with
  | [] => None
  | b :: rest =>
      if Byte.eqb b Byte.x00 then Some (O, rest)
      else match readUnary rest with
           | Some (n, rest) => Some (S n, rest)
           | None => None
           end
  end.

Definition readSize (buf : list Byte.byte) : option (Z * list Byte.byte) :=
  match readUnary buf with
  | Some (n, rest) => Some (Z.of_nat n, rest)
  | None => None
  end.

Definition writeString (s : string) : list Byte.byte :=
  writeSize (Z.of_nat (String.length s)) ++ String.list_byte_of_string s.

Definition readString (buf : list Byte.byte) : option (string * list Byte.byte) :=
  match readUnary buf with
  | Some (n, rest) =>
      if (length rest <? n)%nat then None
      else Some (String.string_of_list_byte (take n rest), drop n rest)
  | None => None
  end.

Definition tracker_idle : OrphanKeysInfo.t :=
  {| OrphanKeysInfo.pre_handling := false;
     OrphanKeysInfo.snapshot_index := None;
     OrphanKeysInfo.deadline_index := None;
     OrphanKeysInfo.region_id := 1%N;
     OrphanKeysInfo.remained_keys := ∅;
     OrphanKeysInfo.removed_remained_keys := ∅ |}.

(** Pre-handling although no snapshot index was set. *)
Definition tracker_unset : OrphanKeysInfo.t :=
  {| OrphanKeysInfo.pre_handling := true;
     OrphanKeysInfo.snapshot_index := None;
     OrphanKeysInfo.deadline_index := None;
     OrphanKeysInfo.region_id := 1%N;
     OrphanKeysInfo.remained_keys := ∅;
     OrphanKeysInfo.removed_remained_keys := ∅ |}.

(** A snapshot window: snapshot index 10, deadline 20. *)
Definition tracker_window (keys : gset string) : OrphanKeysInfo.t :=
  {| OrphanKeysInfo.pre_handling := true;
     OrphanKeysInfo.snapshot_index := Some 10%N;
     OrphanKeysInfo.deadline_index := Some 20%N;
     OrphanKeysInfo.region_id := 1%N;
     OrphanKeysInfo.remained_keys := keys;
     OrphanKeysInfo.removed_remained_keys := ∅ |}.

(** Timestamps 65 and 66 are the bytes A and B. Default
    [(u1, 65) -> v1] and Write [(u1, 66) -> {Put, prewrite 65}]. *)
Definition default_u1 : string * N * DefaultCFValue :=
  (("u1"%string, 65%N), {| default_key := "Au1"; default_value := "v1" |}).

Definition write_u1 : string * N * WriteCFValue :=
  (("u1"%string, 66%N),
   {| write_key := "Bu1"; write_value := "PA";
      write_decoded :=
        {| write_type := PutFlag; prewrite_ts := 65%N; short_value := None |} |}).

(** Write [(u2, 66) -> {Put, prewrite 65}], no Default. *)
Definition write_u2 : string * N * WriteCFValue :=
  (("u2"%string, 66%N),
   {| write_key := "Bu2"; write_value := "PA";
      write_decoded :=
        {| write_type := PutFlag; prewrite_ts := 65%N; short_value := None |} |}).

(** Write [(u3, 66)] with the short value [s3]. *)
Definition write_u3 : string * N * WriteCFValue :=
  (("u3"%string, 66%N),
   {| write_key := "Bu3"; write_value := "PAs3";
      write_decoded :=
        {| write_type := PutFlag; prewrite_ts := 65%N;
           short_value := Some "s3"%string |} |}).

(** A Put lock on [Au1], version 65, minimal commit 66, primary [u1]. *)
Definition lock_u1 : string * LockCFValue :=
  ("Au1"%string,
   {| lock_key := "Au1"; lock_value := "PABu1";
      lock_info_ptr :=
        {| lock_version := 65%N; lock_type := kvrpcpb.Put;
           min_commit_ts := 66%N; primary_lock := "u1" |} |}).

Definition region_default_u1 : RegionData.t :=
  {| RegionData.write_cf := ∅;
     RegionData.default_cf := {[ default_u1.1 := default_u1.2 ]};
     RegionData.lock_cf := ∅;
     RegionData.orphan_keys_info := tracker_idle;
     RegionData.cf_data_size := 5 |}.

Definition region_u1 : RegionData.t :=
  {| RegionData.write_cf := {[ write_u1.1 := write_u1.2 ]};
     RegionData.default_cf := {[ default_u1.1 := default_u1.2 ]};
     RegionData.lock_cf := ∅;
     RegionData.orphan_keys_info := tracker_idle;
     RegionData.cf_data_size := 10 |}.

Definition region_locked_u1 : RegionData.t :=
  {| RegionData.write_cf := {[ write_u1.1 := write_u1.2 ]};
     RegionData.default_cf := {[ default_u1.1 := default_u1.2 ]};
     RegionData.lock_cf := {[ lock_u1.1 := lock_u1.2 ]};
     RegionData.orphan_keys_info := tracker_idle;
     RegionData.cf_data_size := 10 |}.

Definition region_u2 (o : OrphanKeysInfo.t) : RegionData.t :=
  {| RegionData.write_cf := {[ write_u2.1 := write_u2.2 ]};
     RegionData.default_cf := ∅;
     RegionData.lock_cf := ∅;
     RegionData.orphan_keys_info := o;
     RegionData.cf_data_size := 5 |}.

Definition region_u3 : RegionData.t :=
  {| RegionData.write_cf := {[ write_u3.1 := write_u3.2 ]};
     RegionData.default_cf := ∅;
     RegionData.lock_cf := ∅;
     RegionData.orphan_keys_info := tracker_idle;
     RegionData.cf_data_size := 7 |}.

(** A PessimisticLock on [Au2], version 65, minimal commit 65. *)
Definition lock_u2 : string * LockCFValue :=
  ("Au2"%string,
   {| lock_key := "Au2"; lock_value := "SAAu2";
      lock_info_ptr :=
        {| lock_version := 65%N; lock_type := kvrpcpb.PessimisticLock;
           min_commit_ts := 65%N; primary_lock := "u2" |} |}).

Definition region_two_locks : RegionData.t :=
  {| RegionData.write_cf := ∅;
     RegionData.default_cf := ∅;
     RegionData.lock_cf :=
       {[ lock_u1.1 := lock_u1.2 ]} ∪ {[ lock_u2.1 := lock_u2.2 ]};
     RegionData.orphan_keys_info := tracker_idle;
     RegionData.cf_data_size := 0 |}.

(** A read at timestamp 70 that bypasses nothing. *)
Definition query_70 : RegionData.RegionLockReadQuery :=
  {| RegionData.read_tso := 70%N; RegionData.bypass_lock_ts := None |}.

(** A read at timestamp 70 with an empty bypass set. *)
Definition query_70_no_bypass : RegionData.RegionLockReadQuery :=
  {| RegionData.read_tso := 70%N; RegionData.bypass_lock_ts := Some ∅ |}.

(** [region_u1] after merging [region_u2] into it. *)
Definition region_u1_u2 : RegionData.t :=
  {| RegionData.write_cf :=
       {[ write_u1.1 := write_u1.2 ]} ∪ {[ write_u2.1 := write_u2.2 ]};
     RegionData.default_cf := {[ default_u1.1 := default_u1.2 ]};
     RegionData.lock_cf := ∅;
     RegionData.orphan_keys_info := tracker_idle;
     RegionData.cf_data_size := 15 |}.

End Sample.

(** * Properties *)

(** ** The MVCC resolver *)

Section Resolver.
Import RegionData.

Implicit Types (write_it : string * N * WriteCFValue) (this : RegionData.t).

(** The exits of the resolver, as rewriting rules. *)
Lemma readDataByWriteIt_empty_pk write_it need_value region_id applied hard_error this :
  write_it.1.1 = EmptyString →
  readDataByWriteIt write_it need_value region_id applied hard_error this
  = inl (ObserveEmptyPK (write_key write_it.2)).
Proof. intros Hpk. unfold readDataByWriteIt. by rewrite bool_decide_eq_true_2. Qed.

Lemma readDataByWriteIt_short write_it region_id applied hard_error this short :
  write_it.1.1 ≠ EmptyString →
  write_type (write_decoded write_it.2) = PutFlag →
  short_value (write_decoded write_it.2) = Some short →
  readDataByWriteIt write_it true region_id applied hard_error this
  = inr (Some (write_it.1.1, PutFlag, write_it.1.2, Some short), this).
Proof.
  intros Hpk Hput Hshort. unfold readDataByWriteIt.
  rewrite bool_decide_eq_false_2 by done. simpl.
  rewrite bool_decide_eq_false_2 by (by intros []).
  by rewrite Hput, Hshort.
Qed.

Lemma readDataByWriteIt_default write_it region_id applied hard_error this data :
  write_it.1.1 ≠ EmptyString →
  write_type (write_decoded write_it.2) = PutFlag →
  short_value (write_decoded write_it.2) = None →
  default_cf this !! (write_it.1.1, prewrite_ts (write_decoded write_it.2))
  = Some data →
  readDataByWriteIt write_it true region_id applied hard_error this
  = inr (Some (write_it.1.1, PutFlag, write_it.1.2, Some (default_value data)),
         this).
Proof.
  intros Hpk Hput Hshort Hdefault. unfold readDataByWriteIt.
  rewrite bool_decide_eq_false_2 by done. simpl.
  rewrite bool_decide_eq_false_2 by (by intros []).
  by rewrite Hput, Hshort, Hdefault.
Qed.

Lemma readDataByWriteIt_missing write_it region_id applied hard_error this :
  write_it.1.1 ≠ EmptyString →
  write_type (write_decoded write_it.2) = PutFlag →
  short_value (write_decoded write_it.2) = None →
  default_cf this !! (write_it.1.1, prewrite_ts (write_decoded write_it.2)) = None →
  readDataByWriteIt write_it true region_id applied hard_error this
  = if hard_error then
      inl (DefaultNotFound write_it.1.1 (prewrite_ts (write_decoded write_it.2))
             (write_key write_it.2) region_id applied None)
    else if OrphanKeysInfo.pre_handling (orphan_keys_info this) then
      match OrphanKeysInfo.snapshot_index (orphan_keys_info this) with
      | None => inl SnapshotIndexNotSet
      | Some _ =>
          inr (None,
               with_orphan_keys_info
                 (OrphanKeysInfo.observeExtraKey (write_key write_it.2)
                    (orphan_keys_info this)) this)
      end
    else inr (None, this).
Proof.
  intros Hpk Hput Hshort Hdefault. unfold readDataByWriteIt.
  rewrite bool_decide_eq_false_2 by done. simpl.
  rewrite bool_decide_eq_false_2 by (by intros []).
  rewrite Hshort, Hdefault.
  destruct hard_error; simpl; [done|].
  destruct (OrphanKeysInfo.pre_handling _); [done|].
  destruct (OrphanKeysInfo.snapshot_index _); [|done].
  by destruct (OrphanKeysInfo.containsExtraKey _ _).
Qed.

(** C1, as amended. A Put without short value and without its Default,
    read with [need_value] and [hard_error] both set, fails with
    ILLFORMAT_RAFT_ROW whatever the tracker holds; for a non-empty primary
    key the diagnostic carries the primary key, the prewrite timestamp, the
    raw key, the region id and the applied index, and nothing about
    orphans. *)
Theorem readDataByWriteIt_missing_default_hard write_it region_id applied this :
  write_type (write_decoded write_it.2) = PutFlag →
  short_value (write_decoded write_it.2) = None →
  default_cf this !! (write_it.1.1, prewrite_ts (write_decoded write_it.2)) = None →
  ∃ e,
    readDataByWriteIt write_it true region_id applied true this = inl e
    ∧ error_code e = Some ErrorCodes.ILLFORMAT_RAFT_ROW
    ∧ (write_it.1.1 ≠ EmptyString →
       e = DefaultNotFound write_it.1.1 (prewrite_ts (write_decoded write_it.2))
             (write_key write_it.2) region_id applied None).
Proof.
  intros Hput Hshort Hdefault.
  destruct (decide (write_it.1.1 = EmptyString)) as [Hpk|Hpk].
  - eexists. rewrite readDataByWriteIt_empty_pk by done.
    split; [done|]. split; [done|]. by intros [].
  - eexists. rewrite readDataByWriteIt_missing by done.
    split; [done|]. by split.
Qed.

(** C5. A Put with a non-empty primary key, read with [need_value]: an
    embedded short value is returned as it is, whatever the Default store
    holds; without one, a Default entry present at (pk, prewrite_ts) gives
    exactly its value. Either way the result carries (pk, Put, commit ts)
    and the instance is unchanged. *)
Theorem readDataByWriteIt_put_value write_it region_id applied hard_error this :
  write_it.1.1 ≠ EmptyString →
  write_type (write_decoded write_it.2) = PutFlag →
  (∀ short,
     short_value (write_decoded write_it.2) = Some short →
     readDataByWriteIt write_it true region_id applied hard_error this
     = inr (Some (write_it.1.1, PutFlag, write_it.1.2, Some short), this))
  ∧ (∀ data,
       short_value (write_decoded write_it.2) = None →
       default_cf this !! (write_it.1.1, prewrite_ts (write_decoded write_it.2))
       = Some data →
       readDataByWriteIt write_it true region_id applied hard_error this
       = inr (Some (write_it.1.1, PutFlag, write_it.1.2,
                    Some (default_value data)), this)).
Proof.
  intros Hpk Hput. split.
  - intros short Hshort. by apply readDataByWriteIt_short.
  - intros data Hshort Hdefault. by apply readDataByWriteIt_default.
Qed.

(** C10, as amended. A Put with a non-empty primary key, no short value and
    no Default, read with [need_value] set and [hard_error] clear: the call
    fails the runtime check (a logic error) when the tracker is pre-handling
    without a snapshot index, and returns nullopt in every other case; it
    records the key when pre-handling. Whatever the flags, an
    ILLFORMAT_RAFT_ROW comes out only with [hard_error] set. *)
Theorem readDataByWriteIt_missing_default_soft write_it region_id applied this :
  write_it.1.1 ≠ EmptyString →
  write_type (write_decoded write_it.2) = PutFlag →
  short_value (write_decoded write_it.2) = None →
  default_cf this !! (write_it.1.1, prewrite_ts (write_decoded write_it.2)) = None →
  (if OrphanKeysInfo.pre_handling (orphan_keys_info this)
      && bool_decide (OrphanKeysInfo.snapshot_index (orphan_keys_info this) = None)
   then readDataByWriteIt write_it true region_id applied false this
        = inl SnapshotIndexNotSet
   else ∃ this',
        readDataByWriteIt write_it true region_id applied false this
        = inr (None, this')
        ∧ this' = (if OrphanKeysInfo.pre_handling (orphan_keys_info this)
                   then with_orphan_keys_info
                          (OrphanKeysInfo.observeExtraKey (write_key write_it.2)
                             (orphan_keys_info this)) this
                   else this))
  ∧ (∀ need_value hard_error e,
       readDataByWriteIt write_it need_value region_id applied hard_error this
       = inl e →
       error_code e = Some ErrorCodes.ILLFORMAT_RAFT_ROW →
       hard_error = true).
Proof.
  intros Hpk Hput Hshort Hdefault. split.
  - rewrite readDataByWriteIt_missing by done.
    destruct (OrphanKeysInfo.pre_handling _); simpl; [|by eexists].
    destruct (OrphanKeysInfo.snapshot_index _); simpl; [by eexists|done].
  - intros [] hard_error e.
    + rewrite readDataByWriteIt_missing by done.
      destruct hard_error; [done|].
      destruct (OrphanKeysInfo.pre_handling _); [|done].
      destruct (OrphanKeysInfo.snapshot_index _); [done|].
      by intros [= <-].
    + unfold readDataByWriteIt.
      by rewrite bool_decide_eq_false_2 by done.
Qed.

End Resolver.

(** ** The lock-visibility query *)

Section LockVisibility.
Import RegionData.

Lemma scan_step query key value rest :
  getLockInfo_scan query ((key, value) :: rest)
  = if decide (blocks_read query (lock_info_ptr value))
    then Some (lock_info_ptr value)
    else getLockInfo_scan query rest.
Proof.
  simpl. case_decide as Hblocks.
  - destruct Hblocks as (Hversion & Hlock & Hpess & Hcommit & Hbypass).
    rewrite (proj2 (N.ltb_ge _ _) Hversion).
    rewrite !bool_decide_eq_false_2 by done. simpl.
    rewrite (proj2 (N.ltb_ge _ _) Hcommit).
    unfold bypassed. destruct (bypass_lock_ts query); [|done].
    by rewrite bool_decide_eq_false_2.
  - destruct (N.ltb_spec (read_tso query) (lock_version (lock_info_ptr value)));
      simpl; [done|].
    case_bool_decide; simpl; [done|]. case_bool_decide; simpl; [done|].
    destruct (N.ltb_spec (read_tso query) (min_commit_ts (lock_info_ptr value)));
      [done|].
    unfold bypassed.
    destruct (bypass_lock_ts query) as [versions|] eqn:Hquery.
    + case_bool_decide; [done|]. destruct Hblocks.
      unfold blocks_read. by rewrite Hquery.
    + destruct Hblocks. unfold blocks_read. by rewrite Hquery.
Qed.

Lemma scan_first_blocking query entries :
  match getLockInfo_scan query entries with
  | Some info =>
      blocks_read query info
      ∧ ∃ pre key value post,
          entries = pre ++ (key, value) :: post
          ∧ lock_info_ptr value = info
          ∧ Forall (λ e, ¬ blocks_read query (lock_info_ptr e.2)) pre
  | None => Forall (λ e, ¬ blocks_read query (lock_info_ptr e.2)) entries
  end.
Proof.
  induction entries as [|[key value] rest IH]; [by constructor|].
  rewrite scan_step. case_decide as Hblocks.
  - split; [done|]. by exists [], key, value, rest.
  - destruct (getLockInfo_scan query rest) as [info|].
    + destruct IH as (? & pre & key' & value' & post & -> & ? & ?).
      split; [done|]. exists ((key, value) :: pre), key', value', post.
      repeat split; [done|]. by constructor.
    + by constructor.
Qed.

(** C4. [getLockInfo] walks the Lock family in its iteration order and
    returns the first entry that blocks the read: one whose version and
    minimal commit timestamp are not above the read timestamp, that is
    neither a Lock nor a PessimisticLock, and whose version is not in the
    bypass set; every entry before it is skipped for one of these reasons.
    It returns nothing exactly when every entry is skipped. *)
Theorem getLockInfo_first_blocking query (this : RegionData.t) :
  match getLockInfo query this with
  | Some info =>
      ((lock_version info ≤ read_tso query)%N
       ∧ lock_type info ≠ kvrpcpb.Lock
       ∧ lock_type info ≠ kvrpcpb.PessimisticLock
       ∧ (min_commit_ts info ≤ read_tso query)%N
       ∧ (∀ versions, bypass_lock_ts query = Some versions →
            lock_version info ∉ versions))
      ∧ ∃ pre key value post,
          map_to_list (lock_cf this) = pre ++ (key, value) :: post
          ∧ lock_cf this !! key = Some value
          ∧ lock_info_ptr value = info
          ∧ Forall (λ e, ¬ blocks_read query (lock_info_ptr e.2)) pre
  | None =>
      map_Forall (λ _ value, ¬ blocks_read query (lock_info_ptr value))
        (lock_cf this)
  end.
Proof.
  unfold getLockInfo.
  pose proof (scan_first_blocking query (map_to_list (lock_cf this))) as Hscan.
  destruct (getLockInfo_scan _ _) as [info|].
  - destruct Hscan as (Hblocks & pre & key & value & post & Heq & ? & ?).
    split.
    { destruct Hblocks as (? & ? & ? & ? & Hby). repeat split; try done.
      intros versions Hq. by rewrite Hq in Hby. }
    exists pre, key, value, post.
    repeat split; try done.
    apply elem_of_map_to_list. rewrite Heq. set_solver.
  - intros key value Hlookup%elem_of_map_to_list.
    by apply (proj1 (Forall_forall _ _) Hscan (key, value)).
Qed.

End LockVisibility.

(** ** The orphan-key tracker *)

Section Orphans.
Import OrphanKeysInfo.

Lemma calls_fields cs o :
  snapshot_index (calls cs o) = snapshot_index o
  ∧ deadline_index (calls cs o) = deadline_index o
  ∧ region_id (calls cs o) = region_id o.
Proof.
  revert o. induction cs as [|c cs IH]; intros o; [done|].
  simpl. destruct (IH (call o c)) as (-> & -> & ->). by destruct c.
Qed.

(** A remained key stays until [observeKeyFromNormalWrite] is called on
    it. *)
Lemma calls_keep_key key cs o :
  ObserveKeyFromNormalWrite key ∉ cs →
  key ∈ remained_keys o →
  key ∈ remained_keys (calls cs o).
Proof.
  revert o. induction cs as [|c cs IH]; intros o Hno Hin; [done|].
  apply not_elem_of_cons in Hno as [Hc Hcs].
  simpl. apply IH; [done|].
  destruct c as [key'|key'|other]; simpl; [set_solver| |set_solver].
  assert (key ≠ key') by congruence. set_solver.
Qed.

Lemma advanceAppliedIndex_empty applied_index o :
  remained_keys o = ∅ → advanceAppliedIndex applied_index o = inr ().
Proof.
  intros Hempty. unfold advanceAppliedIndex, remainedKeyCount.
  rewrite Hempty, size_empty.
  destruct (deadline_index o), (snapshot_index o); try done.
  by rewrite andb_false_r.
Qed.

Lemma advanceAppliedIndex_remained key applied_index o snapshot deadline :
  snapshot_index o = Some snapshot →
  deadline_index o = Some deadline →
  (deadline ≤ applied_index)%N →
  key ∈ remained_keys o →
  advanceAppliedIndex applied_index o
  = inl (OrphanKeysStillExist (remainedKeyCount o)
           (head (elements (remained_keys o)))
           (region_id o) snapshot deadline applied_index)
  ∧ 0 < remainedKeyCount o.
Proof.
  intros Hsnapshot Hdeadline Hle Hin.
  assert (0 < remainedKeyCount o) as Hcount.
  { unfold remainedKeyCount.
    assert (size (remained_keys o) ≠ 0%nat); [|lia].
    intros Hsize%size_empty_inv. set_solver. }
  split; [|done]. unfold advanceAppliedIndex.
  rewrite Hsnapshot, Hdeadline.
  destruct (N.leb_spec deadline applied_index); [|lia].
  by destruct (Z.ltb_spec 0 (remainedKeyCount o)); [|lia].
Qed.

(** C2. With the snapshot index and the deadline index both set: a key
    given to [observeExtraKey] and not given to [observeKeyFromNormalWrite]
    by any later call makes [advanceAppliedIndex] at the deadline fail; once
    [observeKeyFromNormalWrite] has removed it as the last remained key,
    [advanceAppliedIndex] returns, at the deadline as at any index. *)
Theorem orphan_deadline (o : OrphanKeysInfo.t) key snapshot deadline :
  snapshot_index o = Some snapshot →
  deadline_index o = Some deadline →
  (∀ cs,
     ObserveKeyFromNormalWrite key ∉ cs →
     ∃ count one,
       0 < count
       ∧ advanceAppliedIndex deadline (calls cs (observeExtraKey key o))
         = inl (OrphanKeysStillExist count one (region_id o)
                  snapshot deadline deadline))
  ∧ (∀ cs,
       remained_keys (calls cs (observeExtraKey key o)) ⊆ {[key]} →
       let o' :=
         (observeKeyFromNormalWrite key (calls cs (observeExtraKey key o))).2 in
       remainedKeyCount o' = 0
       ∧ advanceAppliedIndex deadline o' = inr ()).
Proof.
  intros Hsnapshot Hdeadline. split.
  - intros cs Hno.
    destruct (calls_fields cs (observeExtraKey key o)) as (Hs & Hd & Hr).
    simpl in Hs, Hd, Hr.
    edestruct (advanceAppliedIndex_remained key deadline
                 (calls cs (observeExtraKey key o))) as [Hfail Hcount].
    { by rewrite Hs. }
    { by rewrite Hd. }
    { lia. }
    { apply calls_keep_key; [done|]. simpl. set_solver. }
    rewrite Hr in Hfail. eauto.
  - intros cs Hlast. simpl.
    assert (remained_keys (calls cs (observeExtraKey key o)) ∖ {[key]} = ∅)
      as Hempty.
    { apply set_eq. intros key'.
      rewrite elem_of_difference, elem_of_empty. split; [|done].
      intros [Hin Hne]. apply Hne, Hlast, Hin. }
    split.
    + unfold remainedKeyCount. simpl. by rewrite Hempty, size_empty.
    + by apply advanceAppliedIndex_empty.
Qed.

End Orphans.

(** ** Sizes of a store *)

(** Equations between [size_t] expressions. *)
Ltac wrap_lia :=
  unfold wrap64 in *;
  change (2 ^ 64) with 18446744073709551616 in *;
  Z.div_mod_to_equations; lia.

Lemma wrap64_range z : 0 ≤ wrap64 z < 2 ^ 64.
Proof. unfold wrap64. apply Z.mod_pos_bound. done. Qed.

Lemma wrap64_small z : 0 ≤ z < 2 ^ 64 → wrap64 z = z.
Proof. unfold wrap64. intros. by apply Z.mod_small. Qed.

Section StoreFacts.
Context {K : Type} `{Countable K} {V : Type}.
Variable getTiKVKey : V → TiKVKey.
Variable calc : V → Z.

Implicit Types (data ori : gmap K V).

Lemma cf_bytes_empty : cf_bytes calc (∅ : gmap K V) = 0.
Proof. unfold cf_bytes. by rewrite map_fold_empty. Qed.

Lemma cf_bytes_insert data k v :
  data !! k = None →
  cf_bytes calc (<[k := v]> data) = calc v + cf_bytes calc data.
Proof.
  intros Hfresh. unfold cf_bytes.
  rewrite map_fold_insert_L; [done| |done]. intros. lia.
Qed.

Lemma cf_bytes_delete data k v :
  data !! k = Some v →
  cf_bytes calc data = calc v + cf_bytes calc (delete k data).
Proof.
  intros Hin. unfold cf_bytes.
  rewrite (map_fold_delete_L _ _ k v data); [done| |done]. intros. lia.
Qed.

Lemma cf_bytes_union data ori :
  data ##ₘ ori →
  cf_bytes calc (data ∪ ori) = cf_bytes calc data + cf_bytes calc ori.
Proof.
  intros Hdisj. unfold cf_bytes.
  rewrite map_fold_disj_union; [|done|intros; lia].
  induction data as [|k v data Hk IH] using map_ind.
  - by rewrite !map_fold_empty.
  - apply map_disjoint_insert_l in Hdisj as [_ Hdisj].
    rewrite !map_fold_insert_L; [|intros; lia|done|intros; lia|done].
    rewrite IH by done. lia.
Qed.

Lemma cf_bytes_overwrite data k old v :
  data !! k = Some old →
  cf_bytes calc (<[k := v]> data) = cf_bytes calc data - calc old + calc v.
Proof.
  intros Hin. rewrite <-insert_delete_eq.
  rewrite cf_bytes_insert by apply lookup_delete_eq.
  rewrite (cf_bytes_delete data k old) by done. lia.
Qed.

(** What the four mutating operations report is what they change. *)
Lemma cf_insert_bytes kv mode data delta data' :
  cf_insert getTiKVKey calc kv mode data = inr (delta, data') →
  data' = <[kv.1 := kv.2]> data
  ∧ wrap64 (cf_bytes calc data') = wrap64 (cf_bytes calc data + delta).
Proof.
  unfold cf_insert. destruct (data !! kv.1) as [old|] eqn:Hlookup.
  - destruct mode; [done|]. intros [= <- <-]. split; [done|].
    rewrite (cf_bytes_overwrite _ _ old) by done. wrap_lia.
  - intros [= <- <-]. split; [done|].
    rewrite cf_bytes_insert by done. f_equal. lia.
Qed.

Lemma cf_remove_bytes key data :
  ∃ delta data',
    cf_remove calc key true data = inr (delta, data')
    ∧ data' = delete key data
    ∧ cf_bytes calc data = delta + cf_bytes calc data'.
Proof.
  unfold cf_remove. destruct (data !! key) as [value|] eqn:Hlookup.
  - eexists _, _. split; [done|]. split; [done|]. by apply cf_bytes_delete.
  - eexists _, _. split; [done|]. split; [|lia].
    symmetry. by apply delete_id.
Qed.

Lemma cf_mergeFrom_bytes ori data delta data' :
  cf_mergeFrom calc ori data = inr (delta, data') →
  data ##ₘ ori
  ∧ data' = data ∪ ori
  ∧ delta = wrap64 (cf_bytes calc ori)
  ∧ cf_bytes calc data' = cf_bytes calc data + cf_bytes calc ori.
Proof.
  unfold cf_mergeFrom. case_decide as Hdisj; [|done].
  intros [= <- <-]. repeat split; try done. by apply cf_bytes_union.
Qed.

Section SplitFacts.
Context {RegionRange : Type}.
Variable range_contains : RegionRange → TiKVKey → bool.

Lemma cf_splitInto_fresh range data :
  cf_splitInto getTiKVKey calc range_contains range data ∅
  = (wrap64 (cf_bytes calc (filter (in_range getTiKVKey range_contains range) data)),
     filter (λ kv, ¬ in_range getTiKVKey range_contains range kv) data,
     filter (in_range getTiKVKey range_contains range) data).
Proof. unfold cf_splitInto. simpl. by rewrite (left_id_L ∅ (∪)). Qed.

Lemma cf_bytes_split range data :
  cf_bytes calc data
  = cf_bytes calc (filter (λ kv, ¬ in_range getTiKVKey range_contains range kv) data)
    + cf_bytes calc (filter (in_range getTiKVKey range_contains range) data).
Proof.
  rewrite <-cf_bytes_union.
  - f_equal. rewrite map_union_comm.
    + symmetry. apply map_filter_union_complement.
    + symmetry. apply map_disjoint_filter_complement.
  - symmetry. apply map_disjoint_filter_complement.
Qed.

End SplitFacts.
End StoreFacts.

(** ** The tracked size *)

Section Invariants.
Variable decodeTiKVKey : TiKVKey → DecodedTiKVKey.
Variable getRawTiDBPK : DecodedTiKVKey → RawTiDBPK.
Variable getTs : TiKVKey → Timestamp.
Variable decodeWriteCFValue : TiKVValue → option DecodedWriteCFValue.
Variable decodeLockCFValue : TiKVKey → TiKVValue → option DecodedLockCFValue.
Context {RegionRange : Type}.
Variable range_contains : RegionRange → TiKVKey → bool.

Import RegionData.

Local Abbreviation insert :=
  (RegionData.insert decodeTiKVKey getRawTiDBPK getTs
     decodeWriteCFValue decodeLockCFValue).
Local Abbreviation remove :=
  (RegionData.remove decodeTiKVKey getRawTiDBPK getTs).
Local Abbreviation splitInto := (RegionData.splitInto range_contains).
Local Abbreviation reachable :=
  (RegionData.reachable decodeTiKVKey getRawTiDBPK getTs
     decodeWriteCFValue decodeLockCFValue range_contains).
Local Abbreviation in_default range := (in_range default_key range_contains range).
Local Abbreviation in_write range := (in_range write_key range_contains range).
Local Abbreviation in_lock range := (in_range lock_key range_contains range).

Implicit Types (this ori : RegionData.t).

Lemma lock_bytes (data : gmap string LockCFValue) : cf_bytes lock_size data = 0.
Proof.
  induction data as [|k v data Hk IH] using map_ind.
  - apply cf_bytes_empty.
  - rewrite cf_bytes_insert by done. by rewrite IH.
Qed.

Lemma insert_size_tracked cf key value mode this delta this' calls :
  size_tracked this →
  insert cf key value mode this = inr (delta, this', calls) →
  size_tracked this'.
Proof.
  unfold size_tracked, stored_bytes. intros Hsize Hinsert.
  destruct cf; simpl in Hinsert.
  - unfold write_cf_insert in Hinsert.
    destruct (write_genKVPair _ _ _ _ _ _) as [|kv]; [done|]. simpl in Hinsert.
    destruct (cf_insert _ _ _ _ _) as [|[d data]] eqn:Hcf; [done|].
    injection Hinsert as <- <- <-. simpl.
    apply cf_insert_bytes in Hcf as [_ Hbytes]. wrap_lia.
  - unfold default_cf_insert in Hinsert.
    destruct (cf_insert _ _ _ _ _) as [|[d data]] eqn:Hcf; [done|].
    injection Hinsert as <- <- <-. simpl.
    apply cf_insert_bytes in Hcf as [_ Hbytes]. wrap_lia.
  - destruct (lock_cf_insert _ _ _ _ _) as [|[d data]]; [done|].
    by injection Hinsert as <- <- <-.
Qed.

(** [remove] tolerates a missing key: it always returns. *)
Lemma remove_returns cf key this :
  ∃ this' calls, remove cf key this = inr (this', calls).
Proof.
  destruct cf; simpl.
  - destruct (cf_remove_bytes write_size
                (getRawTiDBPK (decodeTiKVKey key), getTs key) (write_cf this))
      as (delta & data & -> & _). by eexists _, _.
  - destruct (cf_remove_bytes default_size
                (getRawTiDBPK (decodeTiKVKey key), getTs key) (default_cf this))
      as (delta & data & -> & _). by eexists _, _.
  - destruct (cf_remove_bytes lock_size key (lock_cf this))
      as (delta & data & -> & _). by eexists _, _.
Qed.

Lemma remove_size_tracked cf key this this' calls :
  size_tracked this →
  remove cf key this = inr (this', calls) →
  size_tracked this'.
Proof.
  unfold size_tracked, stored_bytes. intros Hsize Hremove.
  destruct cf; simpl in Hremove.
  - destruct (cf_remove_bytes write_size
                (getRawTiDBPK (decodeTiKVKey key), getTs key) (write_cf this))
      as (delta & data & Hcf & _ & Hbytes).
    rewrite Hcf in Hremove. injection Hremove as <- <-. simpl. wrap_lia.
  - destruct (cf_remove_bytes default_size
                (getRawTiDBPK (decodeTiKVKey key), getTs key) (default_cf this))
      as (delta & data & Hcf & _ & Hbytes).
    rewrite Hcf in Hremove. injection Hremove as <- <-. simpl. wrap_lia.
  - destruct (cf_remove_bytes lock_size key (lock_cf this))
      as (delta & data & Hcf & _ & Hbytes).
    rewrite Hcf in Hremove. by injection Hremove as <- <-.
Qed.

Lemma removeDataByWriteIt_size_tracked write_it this :
  size_tracked this →
  valid_write_it write_it this →
  size_tracked (removeDataByWriteIt write_it this).1.
Proof.
  unfold size_tracked, stored_bytes, valid_write_it. intros Hsize Hvalid.
  pose proof (cf_bytes_delete write_size _ _ _ Hvalid) as Hwrite.
  unfold removeDataByWriteIt.
  case_bool_decide; [|simpl; wrap_lia].
  destruct (default_cf this !! _) as [data|] eqn:Hdefault; [|simpl; wrap_lia].
  pose proof (cf_bytes_delete default_size _ _ _ Hdefault). simpl. wrap_lia.
Qed.

Lemma splitInto_fresh range this o :
  splitInto range this (empty o)
  = (let moved_default :=
       wrap64 (cf_bytes default_size
                 (filter (in_default range) (default_cf this))) in
     let moved_write :=
       wrap64 (cf_bytes write_size (filter (in_write range) (write_cf this))) in
     let moved_lock :=
       wrap64 (cf_bytes lock_size (filter (in_lock range) (lock_cf this))) in
     let moved :=
       wrap64 (wrap64 (wrap64 (0 + moved_default) + moved_write) + moved_lock) in
     ({| write_cf := filter (λ kv, ¬ in_write range kv) (write_cf this);
         default_cf := filter (λ kv, ¬ in_default range kv) (default_cf this);
         lock_cf := filter (λ kv, ¬ in_lock range kv) (lock_cf this);
         orphan_keys_info := orphan_keys_info this;
         cf_data_size := wrap64 (cf_data_size this - moved) |},
      {| write_cf := filter (in_write range) (write_cf this);
         default_cf := filter (in_default range) (default_cf this);
         lock_cf := filter (in_lock range) (lock_cf this);
         orphan_keys_info := o;
         cf_data_size := wrap64 (0 + moved) |})).
Proof.
  unfold RegionData.splitInto, empty.
  cbn [default_cf write_cf lock_cf cf_data_size orphan_keys_info].
  by rewrite !cf_splitInto_fresh.
Qed.

Lemma splitInto_size_tracked range this o :
  size_tracked this →
  size_tracked (splitInto range this (empty o)).1
  ∧ size_tracked (splitInto range this (empty o)).2.
Proof.
  unfold size_tracked, stored_bytes. intros Hsize.
  rewrite splitInto_fresh. simpl. rewrite lock_bytes.
  pose proof (cf_bytes_split default_key default_size range_contains range
                (default_cf this)).
  pose proof (cf_bytes_split write_key write_size range_contains range
                (write_cf this)).
  split; wrap_lia.
Qed.

Lemma mergeFrom_inv ori this this' :
  mergeFrom ori this = inr this' →
  (default_cf this ##ₘ default_cf ori
   ∧ write_cf this ##ₘ write_cf ori
   ∧ lock_cf this ##ₘ lock_cf ori)
  ∧ this'
    = {| write_cf := write_cf this ∪ write_cf ori;
         default_cf := default_cf this ∪ default_cf ori;
         lock_cf := lock_cf this ∪ lock_cf ori;
         orphan_keys_info := orphan_keys_info this;
         cf_data_size :=
           wrap64
             (cf_data_size this
              + wrap64
                  (wrap64
                     (wrap64
                        (0 + wrap64 (cf_bytes default_size (default_cf ori)))
                      + wrap64 (cf_bytes write_size (write_cf ori)))
                   + wrap64 (cf_bytes lock_size (lock_cf ori)))) |}.
Proof.
  unfold mergeFrom. intros Hmerge.
  destruct (cf_mergeFrom default_size _ _) as [|[d1 m1]] eqn:H1; [done|].
  destruct (cf_mergeFrom write_size _ _) as [|[d2 m2]] eqn:H2; [done|].
  destruct (cf_mergeFrom lock_size _ _) as [|[d3 m3]] eqn:H3; [done|].
  simpl in Hmerge. injection Hmerge as <-.
  apply cf_mergeFrom_bytes in H1 as (? & -> & -> & _).
  apply cf_mergeFrom_bytes in H2 as (? & -> & -> & _).
  apply cf_mergeFrom_bytes in H3 as (? & -> & -> & _).
  done.
Qed.

(** A merge of stores that share no key returns. *)
Lemma mergeFrom_returns ori this :
  default_cf this ##ₘ default_cf ori →
  write_cf this ##ₘ write_cf ori →
  lock_cf this ##ₘ lock_cf ori →
  ∃ this', mergeFrom ori this = inr this'.
Proof.
  intros. unfold mergeFrom, cf_mergeFrom.
  rewrite !decide_True by done. by eexists.
Qed.

Lemma mergeFrom_size_tracked ori this this' :
  size_tracked this →
  mergeFrom ori this = inr this' →
  size_tracked this'.
Proof.
  unfold size_tracked, stored_bytes.
  intros Hsize ((? & ? & ?) & ->)%mergeFrom_inv. simpl.
  rewrite lock_bytes, !cf_bytes_union by done. wrap_lia.
Qed.

Lemma reachable_size_tracked this : reachable this → size_tracked this.
Proof.
  induction 1 as [o|o this _ IH|cf key value mode this delta this' calls _ IH Hop
                 |cf key this this' calls _ IH Hop|write_it this _ IH Hvalid
                 |range this o _ IH|range this o _ IH
                 |ori this this' _ IH _ _ Hop].
  - unfold size_tracked, stored_bytes. simpl. by rewrite !cf_bytes_empty.
  - done.
  - by eapply insert_size_tracked.
  - by eapply remove_size_tracked.
  - by apply removeDataByWriteIt_size_tracked.
  - by apply splitInto_size_tracked.
  - by apply splitInto_size_tracked.
  - by eapply mergeFrom_size_tracked.
Qed.

Lemma kv_size_nonneg key value : 0 ≤ kv_size key value.
Proof. apply wrap64_range. Qed.

Lemma stored_bytes_nonneg this : 0 ≤ stored_bytes this.
Proof.
  assert (∀ {V} (calc : V → Z) (data : gmap (string * N) V),
            (∀ v, 0 ≤ calc v) → 0 ≤ cf_bytes calc data) as Hnonneg.
  { intros V calc data Hcalc.
    induction data as [|k v data Hk IH] using map_ind.
    - by rewrite cf_bytes_empty.
    - rewrite cf_bytes_insert by done. specialize (Hcalc v). lia. }
  unfold stored_bytes.
  pose proof (Hnonneg _ default_size (default_cf this)
                (λ v, kv_size_nonneg _ _)).
  pose proof (Hnonneg _ write_size (write_cf this) (λ v, kv_size_nonneg _ _)).
  lia.
Qed.

(** C3. On every instance built through insert, remove,
    removeDataByWriteIt, splitInto and mergeFrom, [dataSize] is the sum of
    the sizes of the Default and Write entries held, as a [size_t]: the sum
    itself as long as it is below 2^64. *)
Theorem dataSize_tracks_stored_entries this :
  reachable this →
  dataSize this
  = wrap64 (cf_bytes default_size (default_cf this)
            + cf_bytes write_size (write_cf this))
  ∧ (stored_bytes this < 2 ^ 64 → dataSize this = stored_bytes this).
Proof.
  intros Hsize%reachable_size_tracked. split; [exact Hsize|].
  intros Hfits. unfold dataSize. rewrite Hsize. apply wrap64_small.
  pose proof (stored_bytes_nonneg this). lia.
Qed.

(** ** Split and merge *)

Lemma cf_eqb_refl {K : Type} `{Countable K} {V : Type}
    (getTiKVKey getTiKVValue : V → string) (data : gmap K V) :
  cf_eqb getTiKVKey getTiKVValue data data = true.
Proof. unfold cf_eqb. by apply bool_decide_eq_true_2. Qed.

Lemma filter_complement_union {K : Type} `{Countable K} {V : Type}
    (P : K * V → Prop) `{!∀ kv, Decision (P kv)} (data : gmap K V) :
  filter (λ kv, ¬ P kv) data ##ₘ filter P data
  ∧ filter (λ kv, ¬ P kv) data ∪ filter P data = data.
Proof.
  assert (filter (λ kv, ¬ P kv) data ##ₘ filter P data) as Hdisj.
  { symmetry. apply map_disjoint_filter_complement. }
  split; [done|].
  rewrite map_union_comm by done. apply map_filter_union_complement.
Qed.

(** C6. Splitting any part of an instance off into a default-constructed
    instance and merging that part back returns: the three stores and the
    tracked size are the original ones again, and [isEqual] holds between
    the original and the result. *)
Theorem splitInto_mergeFrom_restores range this o :
  0 ≤ cf_data_size this < 2 ^ 64 →
  ∃ this',
    mergeFrom (splitInto range this (empty o)).2
      (splitInto range this (empty o)).1 = inr this'
    ∧ default_cf this' = default_cf this
    ∧ write_cf this' = write_cf this
    ∧ lock_cf this' = lock_cf this
    ∧ dataSize this' = dataSize this
    ∧ isEqual this' this = true.
Proof.
  intros Hsize. rewrite splitInto_fresh. cbn zeta.
  destruct (filter_complement_union (in_default range) (default_cf this))
    as [Hd1 Hd2].
  destruct (filter_complement_union (in_write range) (write_cf this))
    as [Hw1 Hw2].
  destruct (filter_complement_union (in_lock range) (lock_cf this))
    as [Hl1 Hl2].
  cbn [fst snd].
  match goal with
  | |- ∃ _, mergeFrom ?b ?a = _ ∧ _ =>
      destruct (mergeFrom_returns b a) as [this' Hmerge]; [done..|]
  end.
  exists this'. split; [exact Hmerge|].
  apply mergeFrom_inv in Hmerge as [_ ->].
  cbn [default_cf write_cf lock_cf cf_data_size orphan_keys_info dataSize].
  unfold dataSize, isEqual.
  cbn [default_cf write_cf lock_cf cf_data_size orphan_keys_info].
  rewrite Hd2, Hw2, Hl2, !cf_eqb_refl.
  match goal with
  | |- context [bool_decide (_ = ?x)] =>
      assert (x = cf_data_size this) as Hcounter by wrap_lia
  end.
  repeat split; [exact Hcounter|].
  rewrite andb_true_l. by apply bool_decide_eq_true_2.
Qed.

(** C9. A merge that returns has merged the three stores and added the
    size of the source's Default and Write entries; the tracker of the
    result is the tracker of the target, whatever the source's tracker
    holds, although [OrphanKeysInfo::mergeFrom] would have united the two
    sets of remained keys. *)
Theorem mergeFrom_leaves_tracker ori this this' :
  mergeFrom ori this = inr this' →
  orphan_keys_info this' = orphan_keys_info this
  ∧ default_cf this' = default_cf this ∪ default_cf ori
  ∧ write_cf this' = write_cf this ∪ write_cf ori
  ∧ lock_cf this' = lock_cf this ∪ lock_cf ori
  ∧ dataSize this'
    = wrap64 (dataSize this
              + (cf_bytes default_size (default_cf ori)
                 + cf_bytes write_size (write_cf ori)))
  ∧ OrphanKeysInfo.remained_keys
      (OrphanKeysInfo.mergeFrom (orphan_keys_info ori) (orphan_keys_info this))
    = OrphanKeysInfo.remained_keys (orphan_keys_info this)
      ∪ OrphanKeysInfo.remained_keys (orphan_keys_info ori).
Proof.
  intros [_ ->]%mergeFrom_inv. unfold dataSize. simpl.
  repeat split. rewrite lock_bytes. wrap_lia.
Qed.

(** C8. The Lock family and the tracked size. An insert into the Lock
    family that returns gives 0, leaves the counter and the two counted
    stores as they were and reports nothing to the memory tracker; it does
    return for a value that decodes, inserted with overwriting allowed. A
    removal from the Lock family returns and leaves the counter as it was.
    A split and a merge move the Lock entries like the others, while the
    two counters change by the bytes of the Default and Write entries
    moved, and by nothing for the Lock entries. *)
Theorem lock_family_not_counted this :
  (∀ key value mode,
     match insert ColumnFamilyType.Lock key value mode this with
     | inr (delta, this', calls) =>
         delta = 0 ∧ calls = [] ∧ dataSize this' = dataSize this
         ∧ default_cf this' = default_cf this ∧ write_cf this' = write_cf this
     | inl _ => True
     end)
  ∧ (∀ key value info,
       decodeLockCFValue key value = Some info →
       ∃ this',
         insert ColumnFamilyType.Lock key value Allow this = inr (0, this', [])
         ∧ lock_cf this'
           = <[key := {| lock_key := key; lock_value := value;
                         lock_info_ptr := info |}]> (lock_cf this))
  ∧ (∀ key,
       ∃ this',
         remove ColumnFamilyType.Lock key this = inr (this', [])
         ∧ dataSize this' = dataSize this
         ∧ lock_cf this' = delete key (lock_cf this))
  ∧ (∀ range new_region_data,
       let moved :=
         cf_bytes default_size (filter (in_default range) (default_cf this))
         + cf_bytes write_size (filter (in_write range) (write_cf this)) in
       dataSize (splitInto range this new_region_data).1
       = wrap64 (dataSize this - moved)
       ∧ dataSize (splitInto range this new_region_data).2
         = wrap64 (dataSize new_region_data + moved)
       ∧ lock_cf (splitInto range this new_region_data).1
         = filter (λ kv, ¬ in_lock range kv) (lock_cf this)
       ∧ lock_cf (splitInto range this new_region_data).2
         = lock_cf new_region_data ∪ filter (in_lock range) (lock_cf this))
  ∧ (∀ ori this',
       mergeFrom ori this = inr this' →
       dataSize this'
       = wrap64 (dataSize this
                 + (cf_bytes default_size (default_cf ori)
                    + cf_bytes write_size (write_cf ori)))
       ∧ lock_cf this' = lock_cf this ∪ lock_cf ori).
Proof.
  repeat apply conj.
  - intros key value mode. simpl.
    destruct (lock_cf_insert _ _ _ _ _) as [|[d data]]; simpl; done.
  - intros key value info Hdecode. simpl.
    unfold lock_cf_insert, lock_genKVPair, cf_insert. rewrite Hdecode. simpl.
    destruct (lock_cf this !! key); simpl; by eexists.
  - intros key. simpl.
    destruct (cf_remove_bytes lock_size key (lock_cf this))
      as (delta & data & -> & -> & _). simpl. by eexists.
  - intros range new_region_data. unfold dataSize, RegionData.splitInto, cf_splitInto.
    simpl. rewrite lock_bytes. repeat split; wrap_lia.
  - intros ori this' [_ ->]%mergeFrom_inv. unfold dataSize. simpl.
    rewrite lock_bytes. split; [wrap_lia|done].
Qed.

End Invariants.

(** ** Serialization *)

Section StoreRoundTrip.
Context {K : Type} `{Countable K} {V : Type}.
Variable getTiKVKey : V → TiKVKey.
Variable getTiKVValue : V → TiKVValue.
Variable calc : V → Z.
Variable writeSize : Z → Buffer.
Variable readSize : Buffer → option (Z * Buffer).
Variable writeString : string → Buffer.
Variable readString : Buffer → option (string * Buffer).

(** What the readers owe the writers: a [size_t], and a byte string, are
    read back as written, the rest of the buffer left in place. *)
Hypothesis read_write_size : ∀ n rest,
  0 ≤ n < 2 ^ 64 → readSize (writeSize n ++ rest) = Some (n, rest).
Hypothesis read_write_string : ∀ s rest,
  readString (writeString s ++ rest) = Some (s, rest).

(** The family's pair for a raw key and a raw value, and its insert. *)
Variable genKVPair : TiKVKey → TiKVValue → Result (K * V).

Variable insert_raw : TiKVKey → TiKVValue → gmap K V → Result (Z * gmap K V).
Hypothesis insert_raw_unfold : ∀ key value data,
  insert_raw key value data
  = kv ← genKVPair key value; cf_insert getTiKVKey calc kv Deny data.

Local Abbreviation entry_bytes :=
  (λ kv : K * V,
     writeString (getTiKVKey kv.2) ++ writeString (getTiKVValue kv.2)).
Local Abbreviation regenerated :=
  (λ kv : K * V, genKVPair (getTiKVKey kv.2) (getTiKVValue kv.2) = inr kv).

Lemma read_string_back s rest :
  read_with readString (writeString s ++ rest) = inr (s, rest).
Proof. unfold read_with. by rewrite read_write_string. Qed.

Lemma serialize_entries_bytes (l : list (K * V)) acc :
  (foldl (cf_serialize_entry getTiKVKey getTiKVValue writeString) acc l).2
  = acc.2 ++ flat_map entry_bytes l.
Proof.
  revert acc. induction l as [|kv l IH]; intros acc; simpl.
  - by rewrite app_nil_r.
  - rewrite IH. simpl. by rewrite <-!app_assoc.
Qed.

Lemma cf_serialize_bytes (data : gmap K V) buf :
  (cf_serialize getTiKVKey getTiKVValue writeSize writeString data buf).2
  = buf ++ writeSize (Z.of_nat (size data))
        ++ flat_map entry_bytes (map_to_list data).
Proof.
  unfold cf_serialize. rewrite serialize_entries_bytes. simpl.
  by rewrite <-app_assoc.
Qed.

Lemma deserialize_entries (l : list (K * V)) rest (data : gmap K V) total :
  NoDup l.*1 →
  (∀ k, k ∈ l.*1 → data !! k = None) →
  Forall regenerated l →
  ∃ total',
    cf_deserialize_entries readString insert_raw (length l)
      (flat_map entry_bytes l ++ rest) data total
    = inr (total', list_to_map l ∪ data, rest)
    ∧ wrap64 total' = wrap64 (total + cf_bytes calc (list_to_map l)).
Proof.
  revert data total.
  induction l as [|[k v] l IH]; intros data total Hnodup Hfresh Hgen.
  - exists total. simpl. rewrite (left_id_L ∅ (∪)), cf_bytes_empty.
    split; [done|]. f_equal. lia.
  - apply NoDup_cons in Hnodup as [Hk Hnodup].
    apply Forall_cons in Hgen as [Hkv Hgen]. simpl in Hkv.
    assert (list_to_map l !! k = None) as Hnone
      by (by apply not_elem_of_list_to_map_1).
    destruct (IH (<[k := v]> data) (wrap64 (total + calc v))) as (total' & Hrun & Htotal);
      [done| |done|].
    { intros k' Hk'. rewrite lookup_insert_ne; [|by intros <-].
      apply Hfresh. rewrite fmap_cons. apply elem_of_cons. by right. }
    exists total'. split.
    + simpl. rewrite <-!app_assoc.
      rewrite read_string_back. simpl.
      rewrite read_string_back. simpl.
      rewrite insert_raw_unfold, Hkv. simpl.
      assert (cf_insert getTiKVKey calc (k, v) Deny data
              = inr (calc v, <[k := v]> data)) as ->.
      { unfold cf_insert. simpl. by rewrite Hfresh by set_solver. }
      simpl. rewrite Hrun. do 3 f_equal.
      rewrite <-insert_union_l. symmetry. by apply insert_union_r.
    + rewrite Htotal, list_to_map_cons.
      rewrite (cf_bytes_insert calc (list_to_map l) k v) by done.
      wrap_lia.
Qed.

Lemma cf_deserialize_serialize (data : gmap K V) rest :
  Z.of_nat (size data) < 2 ^ 64 →
  map_Forall (λ k v, regenerated (k, v)) data →
  ∃ total,
    cf_deserialize readSize readString insert_raw
      ((cf_serialize getTiKVKey getTiKVValue writeSize writeString data []).2
       ++ rest) ∅
    = inr (total, data, rest)
    ∧ wrap64 total = wrap64 (cf_bytes calc data).
Proof.
  intros Hfits Hgen.
  destruct (deserialize_entries (map_to_list data) rest ∅ 0)
    as (total & Hrun & Htotal).
  { apply NoDup_fst_map_to_list. }
  { intros. apply lookup_empty. }
  { apply Forall_forall. intros [k v] Hin%elem_of_map_to_list.
    by apply (Hgen k v). }
  exists total. rewrite cf_serialize_bytes. simpl.
  unfold cf_deserialize. rewrite <-app_assoc.
  unfold read_with. rewrite read_write_size by lia. simpl.
  rewrite Nat2Z.id, <-(length_map_to_list data).
  rewrite list_to_map_to_list, (right_id_L ∅ (∪)) in Hrun.
  rewrite list_to_map_to_list in Htotal.
  split; [exact Hrun|]. by rewrite Htotal.
Qed.

End StoreRoundTrip.

Section RoundTrip.
Variable decodeTiKVKey : TiKVKey → DecodedTiKVKey.
Variable getRawTiDBPK : DecodedTiKVKey → RawTiDBPK.
Variable getTs : TiKVKey → Timestamp.
Variable decodeWriteCFValue : TiKVValue → option DecodedWriteCFValue.
Variable decodeLockCFValue : TiKVKey → TiKVValue → option DecodedLockCFValue.
Context {RegionRange : Type}.
Variable range_contains : RegionRange → TiKVKey → bool.
Variable writeSize : Z → Buffer.
Variable readSize : Buffer → option (Z * Buffer).
Variable writeString : string → Buffer.
Variable readString : Buffer → option (string * Buffer).

Hypothesis read_write_size : ∀ n rest,
  0 ≤ n < 2 ^ 64 → readSize (writeSize n ++ rest) = Some (n, rest).
Hypothesis read_write_string : ∀ s rest,
  readString (writeString s ++ rest) = Some (s, rest).

Import RegionData.

Local Abbreviation insert :=
  (RegionData.insert decodeTiKVKey getRawTiDBPK getTs
     decodeWriteCFValue decodeLockCFValue).
Local Abbreviation remove :=
  (RegionData.remove decodeTiKVKey getRawTiDBPK getTs).
Local Abbreviation splitInto := (RegionData.splitInto range_contains).
Local Abbreviation reachable :=
  (RegionData.reachable decodeTiKVKey getRawTiDBPK getTs
     decodeWriteCFValue decodeLockCFValue range_contains).
Local Abbreviation keys_decoded :=
  (RegionData.keys_decoded decodeTiKVKey getRawTiDBPK getTs
     decodeWriteCFValue decodeLockCFValue).
Local Abbreviation write_genKVPair :=
  (RegionData.write_genKVPair decodeTiKVKey getRawTiDBPK getTs
     decodeWriteCFValue).
Local Abbreviation lock_genKVPair :=
  (RegionData.lock_genKVPair decodeLockCFValue).
Local Abbreviation serialize := (RegionData.serialize writeSize writeString).
Local Abbreviation deserialize :=
  (RegionData.deserialize decodeTiKVKey getRawTiDBPK getTs
     decodeWriteCFValue decodeLockCFValue readSize readString).

Implicit Types (this ori : RegionData.t).

Lemma write_genKVPair_again key value kv :
  write_genKVPair key value = inr kv →
  write_genKVPair (write_key kv.2) (write_value kv.2) = inr (kv.1, kv.2).
Proof.
  unfold RegionData.write_genKVPair.
  destruct (decodeWriteCFValue value) as [decoded|] eqn:Hdecode; [|done].
  intros [= <-]. simpl. by rewrite Hdecode.
Qed.

Lemma lock_genKVPair_again key value kv :
  lock_genKVPair key value = inr kv →
  lock_genKVPair (lock_key kv.2) (lock_value kv.2) = inr (kv.1, kv.2).
Proof.
  unfold RegionData.lock_genKVPair.
  destruct (decodeLockCFValue key value) as [decoded|] eqn:Hdecode; [|done].
  intros [= <-]. simpl. by rewrite Hdecode.
Qed.

Lemma insert_keys_decoded cf key value mode this delta this' calls :
  keys_decoded this →
  insert cf key value mode this = inr (delta, this', calls) →
  keys_decoded this'.
Proof.
  intros (Hdefault & Hwrite & Hlock) Hinsert.
  destruct cf; simpl in Hinsert.
  - unfold write_cf_insert in Hinsert.
    destruct (write_genKVPair key value) as [|kv] eqn:Hgen; [done|].
    simpl in Hinsert.
    destruct (cf_insert _ _ _ _ _) as [|[d data]] eqn:Hcf; [done|].
    injection Hinsert as <- <- <-.
    apply cf_insert_bytes in Hcf as [-> _].
    split; [done|]. split; [|done]. simpl.
    apply map_Forall_insert_2; [|done]. by eapply write_genKVPair_again.
  - unfold default_cf_insert in Hinsert.
    destruct (cf_insert _ _ _ _ _) as [|[d data]] eqn:Hcf; [done|].
    injection Hinsert as <- <- <-.
    apply cf_insert_bytes in Hcf as [-> _].
    split; [|done]. simpl. by apply map_Forall_insert_2.
  - unfold lock_cf_insert in Hinsert.
    destruct (lock_genKVPair key value) as [|kv] eqn:Hgen; [done|].
    simpl in Hinsert.
    destruct (cf_insert _ _ _ _ _) as [|[d data]] eqn:Hcf; [done|].
    injection Hinsert as <- <- <-.
    apply cf_insert_bytes in Hcf as [-> _].
    split; [done|]. split; [done|]. simpl.
    apply map_Forall_insert_2; [|done]. by eapply lock_genKVPair_again.
Qed.

Lemma remove_keys_decoded cf key this this' calls :
  keys_decoded this →
  remove cf key this = inr (this', calls) →
  keys_decoded this'.
Proof.
  intros (Hdefault & Hwrite & Hlock) Hremove.
  destruct cf; simpl in Hremove.
  - destruct (cf_remove_bytes write_size
                (getRawTiDBPK (decodeTiKVKey key), getTs key) (write_cf this))
      as (delta & data & Hcf & -> & _).
    rewrite Hcf in Hremove. injection Hremove as <- <-.
    split; [done|]. split; [|done]. by apply map_Forall_delete.
  - destruct (cf_remove_bytes default_size
                (getRawTiDBPK (decodeTiKVKey key), getTs key) (default_cf this))
      as (delta & data & Hcf & -> & _).
    rewrite Hcf in Hremove. injection Hremove as <- <-.
    split; [|done]. by apply map_Forall_delete.
  - destruct (cf_remove_bytes lock_size key (lock_cf this))
      as (delta & data & Hcf & -> & _).
    rewrite Hcf in Hremove. injection Hremove as <- <-.
    split; [done|]. split; [done|]. by apply map_Forall_delete.
Qed.

Lemma removeDataByWriteIt_keys_decoded write_it this :
  keys_decoded this →
  keys_decoded (removeDataByWriteIt write_it this).1.
Proof.
  intros (Hdefault & Hwrite & Hlock). unfold removeDataByWriteIt.
  assert (map_Forall
            (λ k v, default_genKVPair decodeTiKVKey getRawTiDBPK getTs
                      (default_key v) (default_value v) = (k, v))
            (delete (write_it.1.1, prewrite_ts (write_decoded write_it.2))
               (default_cf this))) by (by apply map_Forall_delete).
  assert (map_Forall
            (λ k v, write_genKVPair (write_key v) (write_value v) = inr (k, v))
            (delete write_it.1 (write_cf this))) by (by apply map_Forall_delete).
  case_bool_decide; [|done].
  by destruct (default_cf this !! _).
Qed.

Lemma map_Forall_filter {K : Type} `{Countable K} {V : Type}
    (P : K → V → Prop) (Q : K * V → Prop) `{!∀ kv, Decision (Q kv)}
    (data : gmap K V) :
  map_Forall P data → map_Forall P (filter Q data).
Proof. intros Hall k v [Hlookup _]%map_lookup_filter_Some. by apply Hall. Qed.

Lemma splitInto_keys_decoded range this o :
  keys_decoded this →
  keys_decoded (splitInto range this (empty o)).1
  ∧ keys_decoded (splitInto range this (empty o)).2.
Proof.
  intros (Hdefault & Hwrite & Hlock). rewrite splitInto_fresh.
  split; repeat split; simpl; by apply map_Forall_filter.
Qed.

Lemma mergeFrom_keys_decoded ori this this' :
  keys_decoded this → keys_decoded ori →
  mergeFrom ori this = inr this' →
  keys_decoded this'.
Proof.
  intros (Hd1 & Hw1 & Hl1) (Hd2 & Hw2 & Hl2) [_ ->]%mergeFrom_inv.
  repeat split; simpl; by apply map_Forall_union_2.
Qed.

Lemma reachable_keys_decoded this : reachable this → keys_decoded this.
Proof.
  induction 1 as [o|o this _ IH|cf key value mode this delta this' calls _ IH Hop
                 |cf key this this' calls _ IH Hop|write_it this _ IH Hvalid
                 |range this o _ IH|range this o _ IH
                 |ori this this' _ IH1 _ IH2 Hop].
  - repeat split; simpl; apply map_Forall_empty.
  - done.
  - by eapply insert_keys_decoded.
  - by eapply remove_keys_decoded.
  - by apply removeDataByWriteIt_keys_decoded.
  - by apply splitInto_keys_decoded.
  - by apply splitInto_keys_decoded.
  - exact (mergeFrom_keys_decoded _ _ _ IH1 IH2 Hop).
Qed.

Lemma serialize_bytes buf this :
  (serialize buf this).2
  = buf
    ++ (cf_serialize default_key default_value writeSize writeString
          (default_cf this) []).2
    ++ (cf_serialize write_key write_value writeSize writeString
          (write_cf this) []).2
    ++ (cf_serialize lock_key lock_value writeSize writeString
          (lock_cf this) []).2.
Proof.
  unfold RegionData.serialize.
  pose proof (cf_serialize_bytes default_key default_value writeSize
                writeString (default_cf this) buf) as E1.
  destruct (cf_serialize default_key _ _ _ _ buf) as [n1 buf1].
  pose proof (cf_serialize_bytes write_key write_value writeSize
                writeString (write_cf this) buf1) as E2.
  destruct (cf_serialize write_key _ _ _ _ buf1) as [n2 buf2].
  pose proof (cf_serialize_bytes lock_key lock_value writeSize
                writeString (lock_cf this) buf2) as E3.
  destruct (cf_serialize lock_key _ _ _ _ buf2) as [n3 buf3].
  cbn [snd] in *. subst buf3 buf2 buf1.
  rewrite !cf_serialize_bytes. cbn [app]. by rewrite <-!app_assoc.
Qed.

(** C7. Every instance built through the interface, each store holding
    fewer than 2^64 entries, is read back from what [serialize] wrote: the
    call returns with the rest of the buffer untouched, the three stores are
    the original ones, the tracked size is the original one, and [isEqual]
    holds. The tracked size read back is recomputed from the entries: what
    is written depends on the three stores alone. *)
Theorem serialize_round_trip this o rest :
  reachable this →
  counts_fit this →
  (∃ region_data,
     deserialize ((serialize [] this).2 ++ rest) (empty o)
     = inr (region_data, rest)
     ∧ default_cf region_data = default_cf this
     ∧ write_cf region_data = write_cf this
     ∧ lock_cf region_data = lock_cf this
     ∧ dataSize region_data = wrap64 (stored_bytes region_data)
     ∧ dataSize region_data = dataSize this
     ∧ isEqual this region_data = true)
  ∧ (∀ other,
       default_cf other = default_cf this →
       write_cf other = write_cf this →
       lock_cf other = lock_cf this →
       serialize [] other = serialize [] this).
Proof.
  intros Hreach (Hfit1 & Hfit2 & Hfit3).
  pose proof (reachable_size_tracked _ _ _ _ _ _ _ Hreach) as Hsize.
  destruct (reachable_keys_decoded _ Hreach) as (Hgen1 & Hgen2 & Hgen3).
  split.
  - rewrite serialize_bytes. simpl. rewrite <-!app_assoc.
    unfold RegionData.deserialize, empty.
    cbn [default_cf write_cf lock_cf cf_data_size orphan_keys_info].
    edestruct (cf_deserialize_serialize default_key default_value default_size
                 writeSize readSize writeString readString
                 read_write_size read_write_string
                 (λ key value,
                    inr (default_genKVPair decodeTiKVKey getRawTiDBPK getTs
                           key value))
                 (λ key value,
                    default_cf_insert decodeTiKVKey getRawTiDBPK getTs
                      key value Deny))
      as (total1 & -> & Htotal1); [done|exact Hfit1| |].
    { intros k v Hkv. simpl. f_equal. by apply Hgen1. }
    simpl.
    edestruct (cf_deserialize_serialize write_key write_value write_size
                 writeSize readSize writeString readString
                 read_write_size read_write_string
                 write_genKVPair
                 (λ key value,
                    write_cf_insert decodeTiKVKey getRawTiDBPK getTs
                      decodeWriteCFValue key value Deny))
      as (total2 & -> & Htotal2); [done|exact Hfit2|exact Hgen2|].
    simpl.
    edestruct (cf_deserialize_serialize lock_key lock_value lock_size
                 writeSize readSize writeString readString
                 read_write_size read_write_string
                 lock_genKVPair
                 (λ key value,
                    lock_cf_insert decodeLockCFValue key value Deny))
      as (total3 & -> & Htotal3); [done|exact Hfit3|exact Hgen3|].
    simpl. eexists. split; [done|].
    unfold dataSize, isEqual, stored_bytes. simpl.
    rewrite !cf_eqb_refl. simpl.
    rewrite lock_bytes in Htotal3.
    unfold size_tracked, stored_bytes in Hsize.
    assert (wrap64 (0 + wrap64 (wrap64 (wrap64 (0 + total1) + total2) + total3))
            = cf_data_size this) as -> by wrap_lia.
    repeat split; try done. by apply bool_decide_eq_true_2.
  - intros other Hd Hw Hl. unfold RegionData.serialize.
    by rewrite Hd, Hw, Hl.
Qed.

End RoundTrip.

(** ** The claims on the sample data *)

Section SampleFacts.
Import Sample RegionData.

Lemma sample_readUnary k rest :
  readUnary (repeat Byte.x01 k ++ Byte.x00 :: rest) = Some (k, rest).
Proof. induction k as [|k IH]; simpl; [done|]. by rewrite IH. Qed.

Lemma sample_read_write_size n rest :
  0 ≤ n < 2 ^ 64 → readSize (writeSize n ++ rest) = Some (n, rest).
Proof.
  intros [Hn _]. unfold readSize, writeSize.
  rewrite <-app_assoc. simpl. rewrite sample_readUnary.
  by rewrite Z2Nat.id.
Qed.

Lemma sample_length_bytes s :
  length (String.list_byte_of_string s) = String.length s.
Proof. induction s as [|c s IH]; simpl; [done|]. by rewrite <-IH. Qed.

Lemma sample_read_write_string s rest :
  readString (writeString s ++ rest) = Some (s, rest).
Proof.
  unfold readString, writeString, writeSize.
  rewrite <-!app_assoc. simpl. rewrite sample_readUnary, Nat2Z.id.
  rewrite <-sample_length_bytes.
  destruct (Nat.ltb_spec (length (String.list_byte_of_string s ++ rest))
              (length (String.list_byte_of_string s))) as [Hlt|_].
  { rewrite length_app in Hlt. lia. }
  rewrite take_app_length, drop_app_length.
  by rewrite String.string_of_list_byte_of_string.
Qed.

Lemma sample_reachable :
  reachable decodeTiKVKey getRawTiDBPK getTs decodeWriteCFValue
    decodeLockCFValue range_contains region_locked_u1.
Proof.
  eapply (reach_insert _ _ _ _ _ _ ColumnFamilyType.Lock "Au1" "PABu1" Deny
            region_u1); [|by vm_compute].
  eapply (reach_insert _ _ _ _ _ _ ColumnFamilyType.Write "Bu1" "PA" Deny
            region_default_u1); [|by vm_compute].
  eapply (reach_insert _ _ _ _ _ _ ColumnFamilyType.Default "Au1" "v1" Deny
            (empty tracker_idle)); [|by vm_compute].
  apply reach_empty.
Qed.

(** C1 on the sample: the Write of [u2] has no Default; read with the hard
    error flag, the call fails with ILLFORMAT_RAFT_ROW. *)
Lemma readDataByWriteIt_missing_default_hard_witness :
  ∃ e,
    readDataByWriteIt write_u2 true 1%N 7%N true (region_u2 tracker_idle) = inl e
    ∧ error_code e = Some ErrorCodes.ILLFORMAT_RAFT_ROW
    ∧ (write_u2.1.1 ≠ EmptyString →
       e = DefaultNotFound "u2" 65%N "Bu2" 1%N 7%N None).
Proof.
  apply (readDataByWriteIt_missing_default_hard write_u2 1%N 7%N
           (region_u2 tracker_idle)); reflexivity.
Defined.

(** C1 as stated fails on the sample: a Put without short value and
    without Default, the tracker neither pre-handling nor holding a snapshot
    index, read with [need_value] set and the hard error flag clear, returns
    nullopt. *)
Lemma readDataByWriteIt_soft_idle_returns :
  write_type (write_decoded write_u2.2) = PutFlag
  ∧ short_value (write_decoded write_u2.2) = None
  ∧ default_cf (region_u2 tracker_idle)
      !! (write_u2.1.1, prewrite_ts (write_decoded write_u2.2)) = None
  ∧ OrphanKeysInfo.pre_handling (orphan_keys_info (region_u2 tracker_idle)) = false
  ∧ OrphanKeysInfo.snapshot_index (orphan_keys_info (region_u2 tracker_idle)) = None
  ∧ readDataByWriteIt write_u2 true 1%N 7%N false (region_u2 tracker_idle)
    = inr (None, region_u2 tracker_idle)
  ∧ ¬ (∃ e, readDataByWriteIt write_u2 true 1%N 7%N false (region_u2 tracker_idle)
            = inl e).
Proof.
  repeat split; try reflexivity. by intros [e [=]].
Qed.

(** C5 on the sample: the short value of [u3], and the Default value of
    [u1], are what the reads return. *)
Lemma readDataByWriteIt_put_value_witness :
  readDataByWriteIt write_u3 true 1%N 7%N true region_u3
  = inr (Some ("u3"%string, PutFlag, 66%N, Some "s3"%string), region_u3)
  ∧ readDataByWriteIt write_u1 true 1%N 7%N true region_u1
    = inr (Some ("u1"%string, PutFlag, 66%N, Some "v1"%string), region_u1).
Proof.
  split.
  - apply (proj1 (readDataByWriteIt_put_value write_u3 1%N 7%N true region_u3
                    ltac:(discriminate) eq_refl) "s3"%string eq_refl).
  - apply (proj2 (readDataByWriteIt_put_value write_u1 1%N 7%N true region_u1
                    ltac:(discriminate) eq_refl) default_u1.2 eq_refl).
    reflexivity.
Defined.

(** C10 on the sample: with a snapshot window open and pre-handling, the
    soft read of [u2] returns nullopt and records the key. *)
Lemma readDataByWriteIt_missing_default_soft_witness :
  readDataByWriteIt write_u2 true 1%N 7%N false (region_u2 (tracker_window ∅))
  = inr (None, region_u2 (tracker_window {["Bu2"%string]})).
Proof.
  destruct (proj1 (readDataByWriteIt_missing_default_soft write_u2 1%N 7%N
                     (region_u2 (tracker_window ∅))
                     ltac:(discriminate) eq_refl eq_refl eq_refl))
    as (this' & Hread & Hthis).
  rewrite Hread, Hthis. reflexivity.
Defined.

(** C10 as stated fails on the sample: pre-handling without a snapshot
    index, the soft read of a Put without short value and without Default
    does not return nullopt, it fails the runtime check. *)
Lemma readDataByWriteIt_soft_unset_fails :
  write_u2.1.1 ≠ EmptyString
  ∧ write_type (write_decoded write_u2.2) = PutFlag
  ∧ short_value (write_decoded write_u2.2) = None
  ∧ default_cf (region_u2 tracker_unset)
      !! (write_u2.1.1, prewrite_ts (write_decoded write_u2.2)) = None
  ∧ readDataByWriteIt write_u2 true 1%N 7%N false (region_u2 tracker_unset)
    = inl SnapshotIndexNotSet
  ∧ ¬ (∃ this',
         readDataByWriteIt write_u2 true 1%N 7%N false (region_u2 tracker_unset)
         = inr (None, this')).
Proof.
  repeat split; try reflexivity; [discriminate|]. by intros [this' [=]].
Qed.

(** C2 on the sample: window (10, 20), the key observed and left is fatal
    at index 20, the key observed and then written is not. *)
Lemma orphan_deadline_witness :
  (∃ count one,
     0 < count
     ∧ OrphanKeysInfo.advanceAppliedIndex 20%N
         (OrphanKeysInfo.observeExtraKey "Bu3" (tracker_window ∅))
       = inl (OrphanKeysStillExist count one 1%N 10%N 20%N 20%N))
  ∧ OrphanKeysInfo.advanceAppliedIndex 20%N
      (OrphanKeysInfo.observeKeyFromNormalWrite "Bu3"
         (OrphanKeysInfo.observeExtraKey "Bu3" (tracker_window ∅))).2
    = inr ().
Proof.
  destruct (orphan_deadline (tracker_window ∅) "Bu3" 10%N 20%N eq_refl eq_refl)
    as [Hfatal Hfine].
  split.
  - apply (Hfatal []). apply not_elem_of_nil.
  - apply (Hfine []). simpl. set_solver.
Defined.

(** C3 on the sample: Default and Write of [u1], 5 bytes each. *)
Lemma dataSize_tracks_stored_entries_witness :
  dataSize region_locked_u1
  = wrap64 (cf_bytes default_size (default_cf region_locked_u1)
            + cf_bytes write_size (write_cf region_locked_u1))
  ∧ (stored_bytes region_locked_u1 < 2 ^ 64 →
     dataSize region_locked_u1 = stored_bytes region_locked_u1).
Proof.
  apply (dataSize_tracks_stored_entries decodeTiKVKey getRawTiDBPK getTs
           decodeWriteCFValue decodeLockCFValue range_contains).
  exact sample_reachable.
Defined.

(** C6 on the sample: the keys from A up to B split off and merged back. *)
Lemma splitInto_mergeFrom_restores_witness :
  ∃ this',
    mergeFrom
      (splitInto range_contains ("A"%string, "B"%string) region_locked_u1
         (empty tracker_unset)).2
      (splitInto range_contains ("A"%string, "B"%string) region_locked_u1
         (empty tracker_unset)).1 = inr this'
    ∧ default_cf this' = default_cf region_locked_u1
    ∧ write_cf this' = write_cf region_locked_u1
    ∧ lock_cf this' = lock_cf region_locked_u1
    ∧ dataSize this' = dataSize region_locked_u1
    ∧ isEqual this' region_locked_u1 = true.
Proof.
  apply (splitInto_mergeFrom_restores range_contains).
  split; [discriminate|reflexivity].
Defined.

(** C7 on the sample, in the toy wire format. *)
Lemma serialize_round_trip_witness :
  ∃ region_data,
    deserialize decodeTiKVKey getRawTiDBPK getTs decodeWriteCFValue
      decodeLockCFValue readSize readString
      ((serialize writeSize writeString [] region_locked_u1).2 ++ [])
      (empty tracker_unset)
    = inr (region_data, [])
    ∧ default_cf region_data = default_cf region_locked_u1
    ∧ write_cf region_data = write_cf region_locked_u1
    ∧ lock_cf region_data = lock_cf region_locked_u1
    ∧ dataSize region_data = wrap64 (stored_bytes region_data)
    ∧ dataSize region_data = dataSize region_locked_u1
    ∧ isEqual region_locked_u1 region_data = true.
Proof.
  apply (serialize_round_trip decodeTiKVKey getRawTiDBPK getTs
           decodeWriteCFValue decodeLockCFValue range_contains
           writeSize readSize writeString readString
           sample_read_write_size sample_read_write_string
           region_locked_u1 tracker_unset []).
  - exact sample_reachable.
  - repeat split; reflexivity.
Defined.

(** C4 on the sample: of a Put lock and a PessimisticLock, both older than
    the read, the Put lock is the one returned. *)
Lemma getLockInfo_first_blocking_witness :
  getLockInfo query_70 region_two_locks = Some (lock_info_ptr lock_u1.2)
  ∧ blocks_read query_70 (lock_info_ptr lock_u1.2)
  ∧ ¬ blocks_read query_70 (lock_info_ptr lock_u2.2).
Proof.
  pose proof (getLockInfo_first_blocking query_70 region_two_locks) as Hfirst.
  assert (getLockInfo query_70 region_two_locks = Some (lock_info_ptr lock_u1.2))
    as Hget by (by vm_compute).
  rewrite Hget in Hfirst. destruct Hfirst as [(? & ? & ? & ? & ?) _].
  split; [exact Hget|]. split.
  - unfold blocks_read. repeat split; assumption.
  - intros (_ & _ & Hpess & _). exact (Hpess eq_refl).
Defined.

(** C8 on the sample: a lock inserted into, and a lock removed from, an
    instance holding 10 counted bytes. *)
Lemma lock_family_not_counted_witness :
  (∃ this',
     insert decodeTiKVKey getRawTiDBPK getTs decodeWriteCFValue
       decodeLockCFValue ColumnFamilyType.Lock "Au1" "PABu1" Allow region_u1
     = inr (0, this', [])
     ∧ lock_cf this' = <[lock_u1.1 := lock_u1.2]> (lock_cf region_u1))
  ∧ (∃ this',
       remove decodeTiKVKey getRawTiDBPK getTs ColumnFamilyType.Lock "Au1"
         region_u1 = inr (this', [])
       ∧ dataSize this' = 10
       ∧ lock_cf this' = delete "Au1"%string (lock_cf region_u1)).
Proof.
  destruct (lock_family_not_counted decodeTiKVKey getRawTiDBPK getTs
              decodeWriteCFValue decodeLockCFValue range_contains region_u1)
    as (_ & Hinsert & Hremove & _).
  split.
  - apply (Hinsert "Au1"%string "PABu1"%string (lock_info_ptr lock_u1.2)).
    reflexivity.
  - apply (Hremove "Au1"%string).
Defined.

(** C9 on the sample: the source holds a remained key, the result of the
    merge holds none. *)
Lemma mergeFrom_leaves_tracker_witness :
  mergeFrom (region_u2 (tracker_window {["Bu2"%string]})) region_u1
  = inr region_u1_u2
  ∧ orphan_keys_info region_u1_u2 = orphan_keys_info region_u1
  ∧ OrphanKeysInfo.remained_keys (orphan_keys_info region_u1_u2) = ∅
  ∧ OrphanKeysInfo.remained_keys
      (OrphanKeysInfo.mergeFrom
         (orphan_keys_info (region_u2 (tracker_window {["Bu2"%string]})))
         (orphan_keys_info region_u1))
    = ∅ ∪ {["Bu2"%string]}.
Proof.
  assert (mergeFrom (region_u2 (tracker_window {["Bu2"%string]})) region_u1
          = inr region_u1_u2) as Hmerge by (by vm_compute).
  destruct (mergeFrom_leaves_tracker _ _ _ Hmerge)
    as (Htracker & _ & _ & _ & _ & Hunion).
  split; [exact Hmerge|]. split; [exact Htracker|].
  split; [reflexivity|exact Hunion].
Defined.

End SampleFacts.

(** * Further properties of the code *)

#[local] Set Warnings "-clear-no-such-hyp".

(** ** More on the orphan-key tracker *)

Section TrackerCalls.
Import OrphanKeysInfo.

Lemma with_remained_keys_same o : with_remained_keys (remained_keys o) o = o.
Proof. by destruct o. Qed.

(** X1. [advanceAppliedIndex] fails exactly when both indices are set, the
    applied index has reached the deadline and a key remains; the
    exception then carries the number of remained keys, one key that does
    remain, the region id and the three indices. *)
Theorem advanceAppliedIndex_fails_exactly applied_index (o : OrphanKeysInfo.t) :
  ((∃ e, advanceAppliedIndex applied_index o = inl e)
   ↔ ∃ snapshot deadline,
       snapshot_index o = Some snapshot
       ∧ deadline_index o = Some deadline
       ∧ (deadline ≤ applied_index)%N
       ∧ remained_keys o ≠ ∅)
  ∧ (∀ e,
       advanceAppliedIndex applied_index o = inl e →
       ∃ one snapshot deadline,
         one ∈ remained_keys o
         ∧ snapshot_index o = Some snapshot
         ∧ deadline_index o = Some deadline
         ∧ e = OrphanKeysStillExist (Z.of_nat (size (remained_keys o)))
                 (Some one) (region_id o) snapshot deadline applied_index).
Proof.
  assert (∀ e,
            advanceAppliedIndex applied_index o = inl e →
            ∃ one snapshot deadline,
              one ∈ remained_keys o
              ∧ snapshot_index o = Some snapshot
              ∧ deadline_index o = Some deadline
              ∧ (deadline ≤ applied_index)%N
              ∧ e = OrphanKeysStillExist (Z.of_nat (size (remained_keys o)))
                      (Some one) (region_id o) snapshot deadline applied_index)
    as Hfail.
  { intros e. unfold advanceAppliedIndex, remainedKeyCount.
    destruct (deadline_index o) as [deadline|]; [|done].
    destruct (snapshot_index o) as [snapshot|]; [|done].
    destruct (N.leb_spec deadline applied_index); [|done].
    destruct (Z.ltb_spec 0 (Z.of_nat (size (remained_keys o)))); [|done].
    simpl. intros [= <-].
    destruct (elements (remained_keys o)) as [|one rest] eqn:Helements.
    { apply elements_empty_inv, size_empty_iff in Helements. lia. }
    exists one, snapshot, deadline. repeat split; try done.
    apply elem_of_elements. rewrite Helements. by left. }
  split; [split|].
  - intros [e (one & snapshot & deadline & Hone & ? & ? & ? & _)%Hfail].
    exists snapshot, deadline. repeat split; try done. set_solver.
  - intros (snapshot & deadline & Hs & Hd & Hle & Hkeys).
    apply set_choose_L in Hkeys as [key Hkey].
    destruct (advanceAppliedIndex_remained key applied_index o snapshot deadline)
      as [-> _]; eauto.
  - intros e (one & snapshot & deadline & ? & ? & ? & _ & ?)%Hfail. eauto 10.
Qed.


(** X3. [observeExtraKey] makes the key remained and is idempotent; every
    other key and the other fields stay; the count grows by one exactly
    when the key was not remained. *)
Theorem observeExtraKey_inserts key (o : OrphanKeysInfo.t) :
  containsExtraKey key (observeExtraKey key o) = true
  ∧ observeExtraKey key (observeExtraKey key o) = observeExtraKey key o
  ∧ (∀ key', key' ≠ key →
       containsExtraKey key' (observeExtraKey key o) = containsExtraKey key' o)
  ∧ remainedKeyCount (observeExtraKey key o)
    = remainedKeyCount o + (if containsExtraKey key o then 0 else 1)
  ∧ (containsExtraKey key o = true → observeExtraKey key o = o).
Proof.
  unfold observeExtraKey, containsExtraKey, remainedKeyCount. simpl.
  repeat apply conj.
  - apply bool_decide_eq_true_2. set_solver.
  - unfold with_remained_keys. simpl. f_equal. set_solver.
  - intros key' Hne. apply bool_decide_ext. set_solver.
  - case_bool_decide as Hin.
    + replace ({[key]} ∪ remained_keys o) with (remained_keys o) by set_solver.
      lia.
    + rewrite size_union by set_solver. rewrite size_singleton. lia.
  - intros Hin%bool_decide_eq_true.
    replace ({[key]} ∪ remained_keys o) with (remained_keys o) by set_solver.
    apply with_remained_keys_same.
Qed.

(** X4. Observing a key that is not remained and then seeing it written
    gives the tracker back as it was, with the answer true. *)
Theorem observe_then_write_restores key (o : OrphanKeysInfo.t) :
  containsExtraKey key o = false →
  observeKeyFromNormalWrite key (observeExtraKey key o) = (true, o).
Proof.
  intros Hin%bool_decide_eq_false.
  unfold observeKeyFromNormalWrite, observeExtraKey. simpl. f_equal.
  - apply bool_decide_eq_true_2. set_solver.
  - unfold with_remained_keys. simpl.
    replace (({[key]} ∪ remained_keys o) ∖ {[key]}) with (remained_keys o)
      by set_solver.
    by destruct o.
Qed.

(** X5. [OrphanKeysInfo::mergeFrom] unites the remained keys and takes
    nothing else from the other tracker: a key is remained afterwards when
    it was in either, the count lies between the larger of the two counts
    and their sum, the indices, the pre-handling flag and the region id are
    the target's; merging the same tracker twice, or a tracker into itself,
    adds nothing. *)
Theorem tracker_mergeFrom_unites (other o : OrphanKeysInfo.t) :
  (∀ key,
     containsExtraKey key (mergeFrom other o)
     = containsExtraKey key o || containsExtraKey key other)
  ∧ remainedKeyCount o ≤ remainedKeyCount (mergeFrom other o)
  ∧ remainedKeyCount other ≤ remainedKeyCount (mergeFrom other o)
  ∧ remainedKeyCount (mergeFrom other o)
    ≤ remainedKeyCount o + remainedKeyCount other
  ∧ snapshot_index (mergeFrom other o) = snapshot_index o
  ∧ deadline_index (mergeFrom other o) = deadline_index o
  ∧ pre_handling (mergeFrom other o) = pre_handling o
  ∧ region_id (mergeFrom other o) = region_id o
  ∧ mergeFrom other (mergeFrom other o) = mergeFrom other o
  ∧ mergeFrom o o = o.
Proof.
  unfold mergeFrom, containsExtraKey, remainedKeyCount. simpl.
  repeat apply conj; try done.
  - intros key. rewrite <-bool_decide_or. apply bool_decide_ext. set_solver.
  - apply inj_le, subseteq_size. set_solver.
  - apply inj_le, subseteq_size. set_solver.
  - rewrite size_union_alt.
    assert (size (remained_keys other ∖ remained_keys o)
            ≤ size (remained_keys other))%nat
      by (apply subseteq_size; set_solver).
    lia.
  - unfold with_remained_keys. simpl. f_equal. set_solver.
  - replace (remained_keys o ∪ remained_keys o) with (remained_keys o)
      by set_solver.
    apply with_remained_keys_same.
Qed.

End TrackerCalls.

(** ** More on the resolver and on purging *)

Section ResolverOutcomes.
Import RegionData.

Implicit Types (write_it other : string * N * WriteCFValue) (this : RegionData.t).

(** Every outcome of the resolver, by cases on what decides it. *)
Lemma readDataByWriteIt_cases write_it need_value region_id applied hard_error this :
  let key := write_key write_it.2 in
  let decoded_val := write_decoded write_it.2 in
  let pk := write_it.1.1 in
  let ts := write_it.1.2 in
  let orphan := orphan_keys_info this in
  let res := readDataByWriteIt write_it need_value region_id applied hard_error this in
  (pk = EmptyString ∧ res = inl (ObserveEmptyPK key))
  ∨ (pk ≠ EmptyString
     ∧ (need_value = false ∨ write_type decoded_val ≠ PutFlag)
     ∧ res = inr (Some (pk, write_type decoded_val, ts, None), this))
  ∨ (pk ≠ EmptyString ∧ need_value = true ∧ write_type decoded_val = PutFlag
     ∧ ∃ short, short_value decoded_val = Some short
                ∧ res = inr (Some (pk, PutFlag, ts, Some short), this))
  ∨ (pk ≠ EmptyString ∧ need_value = true ∧ write_type decoded_val = PutFlag
     ∧ short_value decoded_val = None
     ∧ ∃ data, default_cf this !! (pk, prewrite_ts decoded_val) = Some data
               ∧ res = inr (Some (pk, PutFlag, ts, Some (default_value data)), this))
  ∨ (pk ≠ EmptyString ∧ need_value = true ∧ write_type decoded_val = PutFlag
     ∧ short_value decoded_val = None
     ∧ default_cf this !! (pk, prewrite_ts decoded_val) = None
     ∧ ((hard_error = true
         ∧ res = inl (DefaultNotFound pk (prewrite_ts decoded_val) key
                        region_id applied None))
        ∨ (hard_error = false
           ∧ OrphanKeysInfo.pre_handling orphan = true
           ∧ OrphanKeysInfo.snapshot_index orphan = None
           ∧ res = inl SnapshotIndexNotSet)
        ∨ (hard_error = false
           ∧ OrphanKeysInfo.pre_handling orphan = true
           ∧ is_Some (OrphanKeysInfo.snapshot_index orphan)
           ∧ res = inr (None,
                        with_orphan_keys_info
                          (OrphanKeysInfo.observeExtraKey key orphan) this))
        ∨ (hard_error = false
           ∧ OrphanKeysInfo.pre_handling orphan = false
           ∧ res = inr (None, this)))).
Proof.
  cbn zeta.
  destruct (decide (write_it.1.1 = EmptyString)) as [Hpk|Hpk].
  { left. split; [done|]. by apply readDataByWriteIt_empty_pk. }
  right.
  destruct need_value.
  2: { left. split; [done|]. split; [by left|].
       unfold readDataByWriteIt. by rewrite bool_decide_eq_false_2. }
  destruct (decide (write_type (write_decoded write_it.2) = PutFlag)) as [Hput|Hput].
  2: { left. split; [done|]. split; [by right|].
       unfold readDataByWriteIt. rewrite bool_decide_eq_false_2 by done. simpl.
       by rewrite bool_decide_eq_true_2. }
  right.
  destruct (short_value (write_decoded write_it.2)) as [short|] eqn:Hshort.
  { left. repeat split; try done. exists short. split; [done|].
    by apply readDataByWriteIt_short. }
  right.
  destruct (default_cf this !! (write_it.1.1, prewrite_ts (write_decoded write_it.2)))
    as [data|] eqn:Hdefault.
  { left. repeat split; try done. exists data. split; [done|].
    by apply readDataByWriteIt_default. }
  right. repeat split; try done.
  rewrite readDataByWriteIt_missing by done.
  destruct hard_error; [by left|]. right.
  destruct (OrphanKeysInfo.pre_handling _); [|by right; right].
  destruct (OrphanKeysInfo.snapshot_index _); [right; left|left]; by eauto.
Qed.

(** X6. The resolver throws in exactly three situations: an empty primary
    key, whatever the flags and the write type; a Put read for its value
    that has neither short value nor Default, with the hard error flag,
    where the diagnostic never carries the orphan text; the same Put read
    softly while pre-handling without a snapshot index. *)
Theorem readDataByWriteIt_throws_exactly
    write_it need_value region_id applied hard_error this e :
  readDataByWriteIt write_it need_value region_id applied hard_error this = inl e
  ↔ (write_it.1.1 = EmptyString ∧ e = ObserveEmptyPK (write_key write_it.2))
    ∨ (write_it.1.1 ≠ EmptyString
       ∧ need_value = true
       ∧ write_type (write_decoded write_it.2) = PutFlag
       ∧ short_value (write_decoded write_it.2) = None
       ∧ default_cf this !! (write_it.1.1, prewrite_ts (write_decoded write_it.2))
         = None
       ∧ ((hard_error = true
           ∧ e = DefaultNotFound write_it.1.1
                   (prewrite_ts (write_decoded write_it.2))
                   (write_key write_it.2) region_id applied None)
          ∨ (hard_error = false
             ∧ OrphanKeysInfo.pre_handling (orphan_keys_info this) = true
             ∧ OrphanKeysInfo.snapshot_index (orphan_keys_info this) = None
             ∧ e = SnapshotIndexNotSet))).
Proof.
  pose proof (readDataByWriteIt_cases write_it need_value region_id applied
                hard_error this) as Hcases.
  cbn zeta in Hcases. split.
  - intros Hres. rewrite Hres in Hcases.
    destruct Hcases as [[? [= <-]]|[(_ & _ & [=])|[(_ & _ & _ & ? & _ & [=])
      |[(_ & _ & _ & _ & ? & _ & [=])|(? & ? & ? & ? & ? & Hmiss)]]]].
    { by left. }
    right. repeat split; try done.
    destruct Hmiss as [[? [= <-]]|[(? & ? & ? & [= <-])|[(_ & _ & _ & [=])
      |(_ & _ & [=])]]]; [by left|by right].
  - destruct Hcases as [[Hpk ->]|[(Hpk & Hearly & ->)|[(Hpk & Hneed & Hput & short & Hshort & ->)
      |[(Hpk & Hneed & Hput & Hshort & data & Hdata & ->)
       |(Hpk & Hneed & Hput & Hshort & Hdata & Hmiss)]]]].
    + intros [[_ ->]|[? _]]; done.
    + intros [[? _]|(_ & -> & Hput & _)]; [done|]. by destruct Hearly.
    + intros [[? _]|(_ & _ & _ & ? & _)]; congruence.
    + intros [[? _]|(_ & _ & _ & _ & ? & _)]; congruence.
    + intros [[? _]|(_ & _ & _ & _ & _ & He)]; [done|].
      destruct Hmiss as [[Hh ->]|[(Hh & Hp & Hs & ->)|[(Hh & Hp & Hs & ->)
        |(Hh & Hp & ->)]]];
        destruct He as [[? ->]|(? & ? & Hnone & ->)]; try congruence.
      rewrite Hnone in Hs. by destruct Hs.
Qed.

(** X7. What a resolved read returns: the primary key, the write type and
    the commit timestamp of the entry, the instance untouched; a value only
    for a Put read for its value, and then the embedded short value if
    there is one, the value of the Default at (primary key, prewrite
    timestamp) otherwise. *)
Theorem readDataByWriteIt_resolved
    write_it need_value region_id applied hard_error this pk type ts value this' :
  readDataByWriteIt write_it need_value region_id applied hard_error this
  = inr (Some (pk, type, ts, value), this') →
  this' = this
  ∧ pk = write_it.1.1 ∧ pk ≠ EmptyString
  ∧ type = write_type (write_decoded write_it.2)
  ∧ ts = write_it.1.2
  ∧ match value with
    | None => need_value = false ∨ type ≠ PutFlag
    | Some bytes =>
        need_value = true ∧ type = PutFlag
        ∧ (short_value (write_decoded write_it.2) = Some bytes
           ∨ (short_value (write_decoded write_it.2) = None
              ∧ ∃ data,
                  default_cf this
                    !! (pk, prewrite_ts (write_decoded write_it.2)) = Some data
                  ∧ default_value data = bytes))
    end.
Proof.
  pose proof (readDataByWriteIt_cases write_it need_value region_id applied
                hard_error this) as Hcases.
  cbn zeta in Hcases. intros Hres. rewrite Hres in Hcases.
  destruct Hcases as [[_ [=]]|[(Hpk & Hearly & [= -> -> -> -> ->])
    |[(Hpk & Hneed & Hput & short & Hshort & [= -> -> -> -> ->])
     |[(Hpk & Hneed & Hput & Hshort & data & Hdata & [= -> -> -> -> ->])
      |(_ & _ & _ & _ & _ & Hmiss)]]]].
  - done.
  - repeat split; try done. by left.
  - repeat split; try done. right. split; [done|]. by exists data.
  - destruct Hmiss as [[_ [=]]|[(_ & _ & _ & [=])|[(_ & _ & _ & [=])
      |(_ & _ & [=])]]].
Qed.

(** X8. A read that returns never touches the three stores nor the tracked
    size. It answers nullopt only for a Put read softly for its value that
    has neither short value nor Default; the tracker then gains the raw key
    of the entry when pre-handling, and stays as it is otherwise. *)
Theorem readDataByWriteIt_frame
    write_it need_value region_id applied hard_error this res this' :
  readDataByWriteIt write_it need_value region_id applied hard_error this
  = inr (res, this') →
  write_cf this' = write_cf this
  ∧ default_cf this' = default_cf this
  ∧ lock_cf this' = lock_cf this
  ∧ cf_data_size this' = cf_data_size this
  ∧ (res = None →
     need_value = true ∧ hard_error = false
     ∧ write_type (write_decoded write_it.2) = PutFlag
     ∧ short_value (write_decoded write_it.2) = None
     ∧ default_cf this !! (write_it.1.1, prewrite_ts (write_decoded write_it.2))
       = None)
  ∧ orphan_keys_info this'
    = (if bool_decide (res = None)
          && OrphanKeysInfo.pre_handling (orphan_keys_info this)
       then OrphanKeysInfo.observeExtraKey (write_key write_it.2)
              (orphan_keys_info this)
       else orphan_keys_info this).
Proof.
  pose proof (readDataByWriteIt_cases write_it need_value region_id applied
                hard_error this) as Hcases.
  cbn zeta in Hcases. intros Hres. rewrite Hres in Hcases.
  destruct Hcases as [[_ [=]]|[(Hpk & Hearly & [= -> ->])
    |[(Hpk & Hneed & Hput & short & Hshort & [= -> ->])
     |[(Hpk & Hneed & Hput & Hshort & data & Hdata & [= -> ->])
      |(Hpk & Hneed & Hput & Hshort & Hdata & Hmiss)]]]]; try done.
  destruct Hmiss as [[_ [=]]|[(_ & _ & _ & [=])|[(Hh & Hp & Hs & [= -> ->])
    |(Hh & Hp & [= -> ->])]]].
  - simpl. by rewrite Hp.
  - simpl. by rewrite Hp.
Qed.

(** X9. The hard error flag matters only for a row that cannot be
    resolved: when a read returns the info of a row, the read with the
    other setting of the flag returns the same info, on the same
    instance. *)
Theorem readDataByWriteIt_flag_irrelevant
    write_it need_value region_id applied hard_error hard_error' this info this' :
  readDataByWriteIt write_it need_value region_id applied hard_error this
  = inr (Some info, this') →
  readDataByWriteIt write_it need_value region_id applied hard_error' this
  = inr (Some info, this).
Proof.
  pose proof (readDataByWriteIt_cases write_it need_value region_id applied
                hard_error this) as Hcases.
  pose proof (readDataByWriteIt_cases write_it need_value region_id applied
                hard_error' this) as Hcases'.
  cbn zeta in Hcases, Hcases'. intros Hres. rewrite Hres in Hcases.
  destruct Hcases as [[_ [=]]|[(Hpk & Hearly & [= -> ->])
    |[(Hpk & Hneed & Hput & short & Hshort & [= -> ->])
     |[(Hpk & Hneed & Hput & Hshort & data & Hdata & [= -> ->])
      |(_ & _ & _ & _ & _ & Hmiss)]]]].
  - destruct Hcases' as [[? _]|[(_ & _ & ->)|[(_ & -> & ? & _)
      |[(_ & -> & ? & _)|(_ & -> & ? & _)]]]]; try done;
      by destruct Hearly.
  - destruct Hcases' as [[? _]|[(_ & [?|?] & _)|[(_ & _ & _ & short' & ? & ->)
      |[(_ & _ & _ & ? & _)|(_ & _ & _ & ? & _)]]]]; congruence.
  - destruct Hcases' as [[? _]|[(_ & [?|?] & _)|[(_ & _ & _ & short' & ? & _)
      |[(_ & _ & _ & _ & data' & ? & ->)|(_ & _ & _ & _ & ? & _)]]]];
      congruence.
  - destruct Hmiss as [[_ [=]]|[(_ & _ & _ & [=])|[(_ & _ & _ & [=])
      |(_ & _ & [=])]]].
Qed.


(** X10. From the resolver to the deadline. While pre-handling with a
    snapshot index, the soft read of a Put without short value and without
    Default returns nullopt and makes the raw key a remained key; reading
    again changes nothing more. With a deadline set, [advanceAppliedIndex]
    at the deadline then fails, until [observeKeyFromNormalWrite] is called
    on that raw key: if no other key remains it returns. *)
Theorem orphan_read_then_deadline write_it region_id applied this snapshot :
  write_it.1.1 ≠ EmptyString →
  write_type (write_decoded write_it.2) = PutFlag →
  short_value (write_decoded write_it.2) = None →
  default_cf this !! (write_it.1.1, prewrite_ts (write_decoded write_it.2)) = None →
  OrphanKeysInfo.pre_handling (orphan_keys_info this) = true →
  OrphanKeysInfo.snapshot_index (orphan_keys_info this) = Some snapshot →
  ∃ this',
    readDataByWriteIt write_it true region_id applied false this
    = inr (None, this')
    ∧ OrphanKeysInfo.containsExtraKey (write_key write_it.2)
        (orphan_keys_info this') = true
    ∧ readDataByWriteIt write_it true region_id applied false this'
      = inr (None, this')
    ∧ (∀ deadline,
         OrphanKeysInfo.deadline_index (orphan_keys_info this) = Some deadline →
         (∃ e, OrphanKeysInfo.advanceAppliedIndex deadline
                 (orphan_keys_info this') = inl e)
         ∧ (OrphanKeysInfo.remained_keys (orphan_keys_info this)
              ⊆ {[write_key write_it.2]} →
            OrphanKeysInfo.advanceAppliedIndex deadline
              (OrphanKeysInfo.observeKeyFromNormalWrite (write_key write_it.2)
                 (orphan_keys_info this')).2 = inr ())).
Proof.
  intros Hpk Hput Hshort Hdefault Hpre Hsnapshot.
  eexists. split.
  { rewrite readDataByWriteIt_missing by done. by rewrite Hpre, Hsnapshot. }
  split; [|split].
  - simpl. apply bool_decide_eq_true_2. set_solver.
  - rewrite readDataByWriteIt_missing by done. simpl.
    rewrite Hpre, Hsnapshot. do 2 f_equal.
    unfold with_orphan_keys_info, OrphanKeysInfo.observeExtraKey,
      OrphanKeysInfo.with_remained_keys. simpl. do 2 f_equal. set_solver.
  - intros deadline Hdeadline. simpl. split.
    + destruct (advanceAppliedIndex_remained (write_key write_it.2) deadline
                  (OrphanKeysInfo.observeExtraKey (write_key write_it.2)
                     (orphan_keys_info this)) snapshot deadline)
        as [-> _]; [done|done|lia| |by eexists].
      simpl. set_solver.
    + intros Honly. apply advanceAppliedIndex_empty. simpl. set_solver.
Qed.

Lemma removeDataByWriteIt_stores write_it this :
  write_cf (removeDataByWriteIt write_it this).1
  = delete write_it.1 (write_cf this)
  ∧ default_cf (removeDataByWriteIt write_it this).1
    = (if bool_decide (write_type (write_decoded write_it.2) = PutFlag)
       then delete (write_it.1.1, prewrite_ts (write_decoded write_it.2))
              (default_cf this)
       else default_cf this)
  ∧ lock_cf (removeDataByWriteIt write_it this).1 = lock_cf this
  ∧ orphan_keys_info (removeDataByWriteIt write_it this).1
    = orphan_keys_info this.
Proof.
  unfold removeDataByWriteIt.
  case_bool_decide as Hput; [|done].
  destruct (default_cf this !! _) as [data|] eqn:Hdefault; simpl; [done|].
  rewrite (delete_id (default_cf this)) by done. by repeat split.
Qed.

(** X11. What [removeDataByWriteIt] removes. The Write entry of the
    iterator goes and every other Write entry stays. When the entry is a
    Put, with or without an embedded short value, the Default entry at
    (primary key, prewrite timestamp) goes and every other Default entry
    stays; when it is not a Put the Default store stays as it is. The Lock
    store and the tracker are not touched. *)
Theorem removeDataByWriteIt_removes write_it this :
  let this' := (removeDataByWriteIt write_it this).1 in
  let target := (write_it.1.1, prewrite_ts (write_decoded write_it.2)) in
  write_cf this' !! write_it.1 = None
  ∧ (∀ k, k ≠ write_it.1 → write_cf this' !! k = write_cf this !! k)
  ∧ (write_type (write_decoded write_it.2) = PutFlag →
     default_cf this' !! target = None
     ∧ ∀ k, k ≠ target → default_cf this' !! k = default_cf this !! k)
  ∧ (write_type (write_decoded write_it.2) ≠ PutFlag →
     default_cf this' = default_cf this)
  ∧ lock_cf this' = lock_cf this
  ∧ orphan_keys_info this' = orphan_keys_info this.
Proof.
  cbn zeta.
  destruct (removeDataByWriteIt_stores write_it this)
    as (-> & -> & -> & ->).
  repeat apply conj; try done.
  - apply lookup_delete_eq.
  - intros k Hk. by apply lookup_delete_ne.
  - intros Hput. rewrite bool_decide_eq_true_2 by done. split.
    + apply lookup_delete_eq.
    + intros k Hk. by apply lookup_delete_ne.
  - intros Hput. by rewrite bool_decide_eq_false_2.
Qed.

(** X12. Purging one row does not disturb the reading of another. If the
    purged entry is not a Put, or the other entry does not point at the
    same (primary key, prewrite timestamp), then reading the other entry
    after [removeDataByWriteIt] gives what reading it before gave, be it an
    exception, a value or nullopt, and purging before or after the read
    leaves the same instance. *)
Theorem removeDataByWriteIt_keeps_other_reads
    write_it other need_value region_id applied hard_error this :
  (write_type (write_decoded write_it.2) ≠ PutFlag
   ∨ (other.1.1, prewrite_ts (write_decoded other.2))
     ≠ (write_it.1.1, prewrite_ts (write_decoded write_it.2))) →
  readDataByWriteIt other need_value region_id applied hard_error
    (removeDataByWriteIt write_it this).1
  = match readDataByWriteIt other need_value region_id applied hard_error this with
    | inl e => inl e
    | inr (res, this') => inr (res, (removeDataByWriteIt write_it this').1)
    end.
Proof.
  intros Hother.
  destruct (removeDataByWriteIt_stores write_it this)
    as (_ & Hdefault & _ & Horphan).
  assert (default_cf (removeDataByWriteIt write_it this).1
            !! (other.1.1, prewrite_ts (write_decoded other.2))
          = default_cf this !! (other.1.1, prewrite_ts (write_decoded other.2)))
    as Hlookup.
  { rewrite Hdefault. case_bool_decide; [|done].
    destruct Hother as [?|Hne]; [done|]. by rewrite lookup_delete_ne. }
  unfold readDataByWriteIt. rewrite Hlookup, Horphan.
  repeat case_match; try done.
  all: try (do 2 f_equal; unfold removeDataByWriteIt, with_orphan_keys_info;
            simpl; by repeat case_match).
Qed.

End ResolverOutcomes.

(** ** Memory accounting, split, move and equality *)

Section Accounting.
Variable decodeTiKVKey : TiKVKey → DecodedTiKVKey.
Variable getRawTiDBPK : DecodedTiKVKey → RawTiDBPK.
Variable getTs : TiKVKey → Timestamp.
Variable decodeWriteCFValue : TiKVValue → option DecodedWriteCFValue.
Variable decodeLockCFValue : TiKVKey → TiKVValue → option DecodedLockCFValue.
Context {RegionRange : Type}.
Variable range_contains : RegionRange → TiKVKey → bool.

Import RegionData.

Local Abbreviation insert :=
  (RegionData.insert decodeTiKVKey getRawTiDBPK getTs
     decodeWriteCFValue decodeLockCFValue).
Local Abbreviation remove :=
  (RegionData.remove decodeTiKVKey getRawTiDBPK getTs).
Local Abbreviation splitInto := (RegionData.splitInto range_contains).

Implicit Types (this rhs other third : RegionData.t).

(** X13. The tracked size and the memory tracker move together: whatever
    [insert], [remove] and [removeDataByWriteIt] add to or take from
    [cf_data_size] is what they report to the memory tracker, as a
    [size_t]; an insert into Default or Write reports exactly the delta it
    returns, an insert into Lock reports nothing. *)
Theorem memory_tracker_follows_size this :
  (∀ cf key value mode delta this' calls,
     insert cf key value mode this = inr (delta, this', calls) →
     wrap64 (cf_data_size this') = wrap64 (cf_data_size this + mem_net calls)
     ∧ calls = match cf with
               | ColumnFamilyType.Lock => []
               | _ => [alloc delta]
               end)
  ∧ (∀ cf key this' calls,
       remove cf key this = inr (this', calls) →
       wrap64 (cf_data_size this') = wrap64 (cf_data_size this + mem_net calls))
  ∧ (∀ write_it,
       wrap64 (cf_data_size (removeDataByWriteIt write_it this).1)
       = wrap64 (cf_data_size this
                 + mem_net (removeDataByWriteIt write_it this).2)).
Proof.
  repeat apply conj.
  - intros cf key value mode delta this' calls Hinsert.
    destruct cf; simpl in Hinsert.
    + destruct (write_cf_insert _ _ _ _ _ _ _ _) as [|[d data]]; [done|].
      injection Hinsert as <- <- <-. simpl. split; [wrap_lia|done].
    + destruct (default_cf_insert _ _ _ _ _ _ _) as [|[d data]]; [done|].
      injection Hinsert as <- <- <-. simpl. split; [wrap_lia|done].
    + destruct (lock_cf_insert _ _ _ _ _) as [|[d data]]; [done|].
      injection Hinsert as <- <- <-. simpl. split; [f_equal; lia|done].
  - intros cf key this' calls Hremove.
    destruct cf; simpl in Hremove.
    + destruct (cf_remove write_size _ _ _) as [|[d data]]; [done|].
      injection Hremove as <- <-. simpl. wrap_lia.
    + destruct (cf_remove default_size _ _ _) as [|[d data]]; [done|].
      injection Hremove as <- <-. simpl. wrap_lia.
    + destruct (cf_remove lock_size _ _ _) as [|[d data]]; [done|].
      injection Hremove as <- <-. simpl. f_equal. lia.
  - intros write_it. unfold removeDataByWriteIt.
    case_bool_decide; [|simpl; wrap_lia].
    destruct (default_cf this !! _); simpl; wrap_lia.
Qed.

(** X14. A split moves size from one counter to the other and loses none:
    the two counters add up, as a [size_t], to what they added up to
    before. Both trackers stay as they were: no remained key follows the
    entries into the new instance. *)
Theorem splitInto_conserves range this new_region_data :
  wrap64 (cf_data_size (splitInto range this new_region_data).1
          + cf_data_size (splitInto range this new_region_data).2)
  = wrap64 (cf_data_size this + cf_data_size new_region_data)
  ∧ orphan_keys_info (splitInto range this new_region_data).1
    = orphan_keys_info this
  ∧ orphan_keys_info (splitInto range this new_region_data).2
    = orphan_keys_info new_region_data.
Proof.
  unfold RegionData.splitInto.
  destruct (cf_splitInto default_key _ _ _ _ _) as [[d1 ?] ?].
  destruct (cf_splitInto write_key _ _ _ _ _) as [[d2 ?] ?].
  destruct (cf_splitInto lock_key _ _ _ _ _) as [[d3 ?] ?].
  simpl. split; [wrap_lia|done].
Qed.

(** X15. The move assignment takes the three stores and the size of the
    right-hand side, keeps the tracker of the target, and reports to the
    memory tracker the difference between the new size and the old one: a
    single call, an allocation when the size grows and a release when it
    shrinks, whose amount is a [size_t] (the subtraction never wraps). *)
Theorem move_assign_reports_delta rhs this :
  0 ≤ cf_data_size this < 2 ^ 64 →
  0 ≤ cf_data_size rhs < 2 ^ 64 →
  isEqual rhs (move_assign rhs this).1 = true
  ∧ orphan_keys_info (move_assign rhs this).1 = orphan_keys_info this
  ∧ mem_net (move_assign rhs this).2 = cf_data_size rhs - cf_data_size this
  ∧ length (move_assign rhs this).2 = 1%nat
  ∧ Forall size_t_call (move_assign rhs this).2.
Proof.
  intros Hthis Hrhs. unfold move_assign, isEqual, reportDelta. simpl.
  rewrite !cf_eqb_refl. simpl.
  split; [by apply bool_decide_eq_true_2|]. split; [done|].
  case_bool_decide; simpl; repeat split; try lia;
    repeat constructor; simpl; lia.
Qed.

(** X16. [isEqual] is an equivalence between instances that looks at the
    three stores and the tracked size only: changing the tracker changes
    no answer, and after [assignRegionData] the target equals the
    source. *)
Theorem isEqual_equivalence this other third o :
  isEqual this this = true
  ∧ isEqual other this = isEqual this other
  ∧ (isEqual other this = true → isEqual third other = true →
     isEqual third this = true)
  ∧ isEqual other (with_orphan_keys_info o this) = isEqual other this
  ∧ isEqual (with_orphan_keys_info o other) this = isEqual other this
  ∧ isEqual other (assignRegionData other this) = true.
Proof.
  unfold isEqual, cf_eqb. simpl. repeat apply conj.
  - by rewrite !bool_decide_eq_true_2.
  - f_equal; [f_equal; [f_equal|]|]; apply bool_decide_ext; split; done.
  - rewrite !andb_true_iff, !bool_decide_eq_true.
    intros [[[-> ->] ->] ->] [[[-> ->] ->] ->]. done.
  - done.
  - done.
  - by rewrite !bool_decide_eq_true_2.
Qed.

(** X17. Only the versions of the locks held matter in the bypass set. Two
    queries with the same read timestamp whose bypass sets agree on the
    version of every lock in the Lock family get the same answer; so a
    null bypass pointer and an empty bypass set are the same query. *)
Theorem getLockInfo_bypass_agree query query' this :
  read_tso query = read_tso query' →
  map_Forall (λ _ value,
                bypassed query (lock_version (lock_info_ptr value))
                = bypassed query' (lock_version (lock_info_ptr value)))
    (lock_cf this) →
  getLockInfo query this = getLockInfo query' this.
Proof.
  intros Htso Hagree. unfold getLockInfo.
  assert (Forall (λ e, bypassed query (lock_version (lock_info_ptr e.2))
                       = bypassed query' (lock_version (lock_info_ptr e.2)))
            (map_to_list (lock_cf this))) as Hlist.
  { apply Forall_forall. intros [key value] Hin%elem_of_map_to_list.
    by apply (Hagree key value). }
  induction Hlist as [|[key value] rest Hhead _ IH]; [done|].
  simpl in *. by rewrite Htso, Hhead, IH.
Qed.

End Accounting.

(** ** The further properties on the sample data *)

Section MoreSampleFacts.
Import Sample RegionData.

(** X4 on the sample: a key observed and then written, in an empty
    window. *)
Lemma observe_then_write_restores_witness :
  OrphanKeysInfo.observeKeyFromNormalWrite "Bu3"
    (OrphanKeysInfo.observeExtraKey "Bu3" (tracker_window ∅))
  = (true, tracker_window ∅).
Proof.
  apply (observe_then_write_restores "Bu3"%string (tracker_window ∅)).
  reflexivity.
Defined.

(** X7 on the sample: the row of [u1] resolves to the value of its
    Default. *)
Lemma readDataByWriteIt_resolved_witness :
  ∃ data,
    default_cf region_u1 !! ("u1"%string, prewrite_ts (write_decoded write_u1.2))
    = Some data
    ∧ default_value data = "v1"%string.
Proof.
  destruct (readDataByWriteIt_resolved write_u1 true 1%N 7%N false region_u1
              "u1"%string PutFlag 66%N (Some "v1"%string) region_u1 eq_refl)
    as (_ & _ & _ & _ & _ & _ & _ & [Hshort|[_ Hdata]]).
  - discriminate Hshort.
  - exact Hdata.
Defined.

(** X8 on the sample: the soft read of [u2] while pre-handling changes the
    tracker only. *)
Lemma readDataByWriteIt_frame_witness :
  write_cf (region_u2 (tracker_window {["Bu2"%string]}))
  = write_cf (region_u2 (tracker_window ∅))
  ∧ default_cf (region_u2 (tracker_window {["Bu2"%string]}))
    = default_cf (region_u2 (tracker_window ∅))
  ∧ lock_cf (region_u2 (tracker_window {["Bu2"%string]}))
    = lock_cf (region_u2 (tracker_window ∅))
  ∧ cf_data_size (region_u2 (tracker_window {["Bu2"%string]}))
    = cf_data_size (region_u2 (tracker_window ∅))
  ∧ orphan_keys_info (region_u2 (tracker_window {["Bu2"%string]}))
    = OrphanKeysInfo.observeExtraKey "Bu2" (tracker_window ∅).
Proof.
  destruct (readDataByWriteIt_frame write_u2 true 1%N 7%N false
              (region_u2 (tracker_window ∅)) None
              (region_u2 (tracker_window {["Bu2"%string]})) eq_refl)
    as (Hwrite & Hdefault & Hlock & Hsize & _ & Htracker).
  split_and!; [exact Hwrite|exact Hdefault|exact Hlock|exact Hsize|].
  exact Htracker.
Defined.

(** X9 on the sample: the row of [u1] read softly, then with the hard
    error flag. *)
Lemma readDataByWriteIt_flag_irrelevant_witness :
  readDataByWriteIt write_u1 true 1%N 7%N true region_u1
  = inr (Some ("u1"%string, PutFlag, 66%N, Some "v1"%string), region_u1).
Proof.
  apply (readDataByWriteIt_flag_irrelevant write_u1 true 1%N 7%N false true
           region_u1 _ region_u1).
  reflexivity.
Defined.

(** X10 on the sample: the orphan Write of [u2] read in the window
    (10, 20). *)
Lemma orphan_read_then_deadline_witness :
  ∃ this',
    readDataByWriteIt write_u2 true 1%N 7%N false (region_u2 (tracker_window ∅))
    = inr (None, this')
    ∧ OrphanKeysInfo.containsExtraKey "Bu2" (orphan_keys_info this') = true
    ∧ (∃ e, OrphanKeysInfo.advanceAppliedIndex 20%N (orphan_keys_info this')
            = inl e)
    ∧ OrphanKeysInfo.advanceAppliedIndex 20%N
        (OrphanKeysInfo.observeKeyFromNormalWrite "Bu2"
           (orphan_keys_info this')).2 = inr ().
Proof.
  destruct (orphan_read_then_deadline write_u2 1%N 7%N
              (region_u2 (tracker_window ∅)) 10%N
              ltac:(discriminate) eq_refl eq_refl eq_refl eq_refl eq_refl)
    as (this' & Hread & Hcontains & _ & Hdeadline).
  destruct (Hdeadline 20%N eq_refl) as [Hfatal Hfine].
  exists this'. split_and!; [exact Hread|exact Hcontains|exact Hfatal|].
  apply Hfine. simpl. apply empty_subseteq.
Defined.

(** X12 on the sample: the row of [u1] reads the same once the row of [u2]
    is purged. *)
Lemma removeDataByWriteIt_keeps_other_reads_witness :
  readDataByWriteIt write_u1 true 1%N 7%N true
    (removeDataByWriteIt write_u2 region_u1_u2).1
  = inr (Some ("u1"%string, PutFlag, 66%N, Some "v1"%string),
         (removeDataByWriteIt write_u2 region_u1_u2).1).
Proof.
  rewrite (removeDataByWriteIt_keeps_other_reads write_u2 write_u1 true 1%N 7%N
             true region_u1_u2); [reflexivity|].
  right. discriminate.
Defined.

(** X15 on the sample: 10 counted bytes assigned over 5. *)
Lemma move_assign_reports_delta_witness :
  isEqual region_u1 (move_assign region_u1 (region_u2 tracker_unset)).1 = true
  ∧ orphan_keys_info (move_assign region_u1 (region_u2 tracker_unset)).1
    = tracker_unset
  ∧ mem_net (move_assign region_u1 (region_u2 tracker_unset)).2 = 10 - 5
  ∧ length (move_assign region_u1 (region_u2 tracker_unset)).2 = 1%nat
  ∧ Forall size_t_call (move_assign region_u1 (region_u2 tracker_unset)).2.
Proof.
  apply (move_assign_reports_delta region_u1 (region_u2 tracker_unset));
    split; [discriminate|reflexivity|discriminate|reflexivity].
Defined.

(** X17 on the sample: no bypass set and an empty bypass set. *)
Lemma getLockInfo_bypass_agree_witness :
  getLockInfo query_70 region_two_locks
  = getLockInfo query_70_no_bypass region_two_locks.
Proof.
  apply (getLockInfo_bypass_agree query_70 query_70_no_bypass region_two_locks).
  - reflexivity.
  - intros key value _. unfold bypassed. simpl.
    symmetry. apply bool_decide_eq_false_2, not_elem_of_empty.
Defined.

End MoreSampleFacts.
